(** * Lite Cycles: a shallow embedding of [lite_cycles.py]

    The game logic of the light-cycle game (classes [Player], [AIPlayer]
    and [TronGame]) is transcribed function by function.  Rendering and
    sound are left out: they read the game state and never write it.

    Numbers.  Start coordinates are Python integers; [move] adds
    [direction * (GRID_SIZE * 1.5)], that is [direction * 30.0], in
    double-precision floating point.  Every number involved is a whole
    number, so a coordinate is of type [Z]; what the floating-point
    addition does to it is written out in [round_double] and
    [Player.move_float].  As long as the numbers stay within 2^53 in
    absolute value the floating-point result is the exact one, and
    [Player.move], which adds the integer 30, is what the code computes
    ([move_float_exact]); beyond that the code rounds and [Player.move]
    is an idealisation of it. *)

From Stdlib Require Import ZArith String List Bool Lia.
Import ListNotations.
Open Scope Z_scope.

(** ** Module-level constants *)

Definition WINDOW_WIDTH : Z := 1400.
Definition WINDOW_HEIGHT : Z := 900.
Definition GRID_SIZE : Z := 20.
Definition FPS : Z := 60.

Definition Color : Type := Z * Z * Z.
Definition NEON_BLUE : Color := (0, 255, 255).
Definition NEON_ORANGE : Color := (255, 128, 0).

(** [GRID_SIZE * 1.5]: the local [move_distance] of [Player.move] and of
    the loop of [AIPlayer.make_decision]. *)
Definition move_distance : Z := GRID_SIZE * 3 / 2.

(** Game states [MENU = 0], [PLAYING = 1], [GAME_OVER = 2]. *)
Inductive GameState : Type := MENU | PLAYING | GAME_OVER.

Definition GameState_eqb (a b : GameState) : bool :=
  match a, b with
  | MENU, MENU | PLAYING, PLAYING | GAME_OVER, GAME_OVER => true
  | _, _ => false
  end.

(** The pygame key constants the program names; every other key code is
    [K_other]. *)
Inductive Key : Type :=
| K_UP | K_DOWN | K_LEFT | K_RIGHT
| K_w | K_s | K_a | K_d
| K_1 | K_2 | K_r | K_m | K_f | K_ESCAPE
| K_other (code : Z).

Definition Key_eq_dec (a b : Key) : {a = b} + {a <> b}.
Proof. decide equality. apply Z.eq_dec. Defined.

Definition Key_eqb (a b : Key) : bool :=
  if Key_eq_dec a b then true else false.

(** A cell, and a heading, are Python pairs of numbers. *)
Definition Cell : Type := Z * Z.
Definition Heading : Type := Z * Z.

(** [==] on pairs. *)
Definition pair_eqb (a b : Z * Z) : bool :=
  (fst a =? fst b) && (snd a =? snd b).

(** [(-d[0], -d[1])]. *)
Definition opposite (d : Heading) : Heading := (- fst d, - snd d).

(** [abs(px - trail_x) < GRID_SIZE and abs(py - trail_y) < GRID_SIZE]. *)
Definition overlaps (px py : Z) (c : Cell) : bool :=
  (Z.abs (px - fst c) <? GRID_SIZE) && (Z.abs (py - snd c) <? GRID_SIZE).

(** A [for] loop over trail cells that leaves at the first overlapping
    cell ([return True] in [check_collision], [safe = False; break] in
    [make_decision]). *)
Fixpoint hits (px py : Z) (cells : list Cell) : bool :=
  match cells with
  | [] => false
  | c :: rest => if overlaps px py c then true else hits px py rest
  end.

(** The slice [l[-k:]]. *)
Definition slice_last {A : Type} (k : nat) (l : list A) : list A :=
  skipn (length l - k) l.

(** A controls dictionary, in insertion order. *)
Definition Controls : Type := list (Key * Heading).

(** [controls.get(key)]: [None] when [key not in controls]. *)
Fixpoint controls_get (c : Controls) (key : Key) : option Heading :=
  match c with
  | [] => None
  | (k, d) :: rest => if Key_eqb k key then Some d else controls_get rest key
  end.

(** ** Python floats that hold whole numbers *)

(** Every whole number up to [2^53] in absolute value is a double. *)
Definition exact_limit : Z := 2 ^ 53.

(** The doubles are below [2^1024] in absolute value. *)
Definition double_limit : Z := 2 ^ 1024.

(** The double nearest to the whole number [v], ties going to the even
    significand (the rounding of IEEE 754 that Python uses): with 53
    bits of significand the doubles around [v] are the multiples of
    [2 ^ (log2 |v| - 52)]. *)
Definition round_double (v : Z) : Z :=
  let q := 2 ^ Z.max 0 (Z.log2 (Z.abs v) - 52) in
  let k := v / q in
  let r := v mod q in
  if 2 * r <? q then k * q
  else if q <? 2 * r then (k + 1) * q
  else if Z.even k then k * q
  else (k + 1) * q.

(** A float result that holds a whole number, or an infinity. *)
Inductive FloatResult : Type :=
| Finite (v : Z)
| Infinite.

(** The conversion of an [int] operand to [float]; [None] stands for
    [OverflowError: int too large to convert to float].  A number that
    is a float already is its own conversion. *)
Definition float_of_int (n : Z) : option Z :=
  let r := round_double n in
  if Z.abs r <? double_limit then Some r else None.

(** [a * b] and [a + b] on floats that hold whole numbers. *)
Definition float_mul (a b : Z) : FloatResult :=
  let r := round_double (a * b) in
  if Z.abs r <? double_limit then Finite r else Infinite.

Definition float_add (a b : Z) : FloatResult :=
  let r := round_double (a + b) in
  if Z.abs r <? double_limit then Finite r else Infinite.

(** [coord + d * move_distance] with [move_distance = 30.0], [d] an
    [int] and [coord] an [int] or a float: the product first, then the
    sum; [None] stands for [OverflowError]. *)
Definition float_step (coord d : Z) : option FloatResult :=
  match float_of_int d with
  | None => None
  | Some fd =>
      let product := float_mul fd move_distance in
      match float_of_int coord with
      | None => None
      | Some fc =>
          Some (match product with
                | Finite s => float_add fc s
                | Infinite => Infinite
                end)
      end
  end.

(** ** class Player *)

Module Player.

(** The fields set by [Player.__init__]; [ai] holds the two fields
    [AIPlayer.__init__] adds, [(last_decision_time, decision_interval)],
    and is [None] for an instance of the base class. *)
Record t : Type := mk {
  x : Z;
  y : Z;
  color : Color;
  controls : Controls;
  name : string;
  direction : Heading;
  trail : list Cell;
  alive : bool;
  speed : Z;
  ai : option (Z * Z)
}.

Definition init (x0 y0 : Z) (col : Color) (ctl : Controls) (nm : string) : t :=
  {| x := x0; y := y0; color := col; controls := ctl; name := nm;
     direction := (1, 0); trail := [(x0, y0)]; alive := true;
     speed := GRID_SIZE; ai := None |}.

Definition set_direction (p : t) (d : Heading) : t :=
  {| x := x p; y := y p; color := color p; controls := controls p;
     name := name p; direction := d; trail := trail p; alive := alive p;
     speed := speed p; ai := ai p |}.

Definition set_position (p : t) (nx ny : Z) : t :=
  {| x := nx; y := ny; color := color p; controls := controls p;
     name := name p; direction := direction p; trail := trail p;
     alive := alive p; speed := speed p; ai := ai p |}.

Definition set_trail (p : t) (tr : list Cell) : t :=
  {| x := x p; y := y p; color := color p; controls := controls p;
     name := name p; direction := direction p; trail := tr;
     alive := alive p; speed := speed p; ai := ai p |}.

Definition set_alive (p : t) (b : bool) : t :=
  {| x := x p; y := y p; color := color p; controls := controls p;
     name := name p; direction := direction p; trail := trail p;
     alive := b; speed := speed p; ai := ai p |}.

Definition set_ai (p : t) (a : option (Z * Z)) : t :=
  {| x := x p; y := y p; color := color p; controls := controls p;
     name := name p; direction := direction p; trail := trail p;
     alive := alive p; speed := speed p; ai := a |}.

(** [move] with the step added exactly; it is what the source computes
    while the numbers stay within [exact_limit] (see [move_float]). *)
Definition move (p : t) : t :=
  if negb (alive p) then p
  else
    let nx := x p + fst (direction p) * move_distance in
    let ny := y p + snd (direction p) * move_distance in
    let p1 := set_position p nx ny in
    let p2 := set_trail p1 (trail p1 ++ [(nx, ny)]) in
    if (1000 <? length (trail p2))%nat
    then set_trail p2 (slice_last 1000 (trail p2))
    else p2.

Definition change_direction (p : t) (new_direction : Heading) : t :=
  if negb (alive p) then p
  else
    let opposite_direction := opposite (direction p) in
    if negb (pair_eqb new_direction opposite_direction)
    then set_direction p new_direction
    else p.

Definition check_collision (self other_player : t) (walls : list Cell)
           (screen_width screen_height : Z) : bool :=
  if negb (alive self) then false
  else if (x self <? 0) || (x self >=? screen_width)
          || (y self <? 0) || (y self >=? screen_height)
  then true
  else if (1 <? length (trail self))%nat
          && hits (x self) (y self) (removelast (trail self))
  then true
  else if hits (x self) (y self) (trail other_player) then true
  else false.

Definition crash (p : t) : t := set_alive p false.

(** What [move] does once the new coordinates are known: it stores them,
    appends them to the trail and keeps the last 1000 cells. *)
Definition advance (p : t) (nx ny : Z) : t :=
  let p1 := set_position p nx ny in
  let p2 := set_trail p1 (trail p1 ++ [(nx, ny)]) in
  if (1000 <? length (trail p2))%nat
  then set_trail p2 (slice_last 1000 (trail p2))
  else p2.

(** How a call of [move] ends: it returns, it raises [OverflowError], or
    it returns with an infinite coordinate, which the coordinates of
    this embedding cannot hold. *)
Inductive MoveResult : Type :=
| Moved (p : t)
| MoveOverflowError
| MoveNotFinite.

(** [move] with the floating-point arithmetic of the source:
    [self.x += self.direction[0] * move_distance], then the same for
    [self.y], then the trail. *)
Definition move_float (p : t) : MoveResult :=
  if negb (alive p) then Moved p
  else
    match float_step (x p) (fst (direction p)) with
    | None => MoveOverflowError
    | Some rx =>
        match float_step (y p) (snd (direction p)) with
        | None => MoveOverflowError
        | Some ry =>
            match rx, ry with
            | Finite nx, Finite ny => Moved (advance p nx ny)
            | _, _ => MoveNotFinite
            end
        end
    end.

End Player.

(** ** class AIPlayer(Player) *)

Module AIPlayer.

Definition init (x0 y0 : Z) (col : Color) (nm : string) : Player.t :=
  let p := Player.init x0 y0 col [] nm in
  let p := Player.set_direction p (-1, 0) in
  Player.set_ai p (Some (0, 100)).

(** [isinstance(p, AIPlayer)]. *)
Definition isinstance (p : Player.t) : bool :=
  match Player.ai p with Some _ => true | None => false end.

(** The literal [[(1, 0), (-1, 0), (0, 1), (0, -1)]]. *)
Definition all_directions : list Heading := [(1, 0); (-1, 0); (0, 1); (0, -1)].

(** [d in l] on a list of pairs. *)
Definition list_in (d : Heading) (l : list Heading) : bool :=
  existsb (pair_eqb d) l.

(** [l.remove(d)]: drops the first element equal to [d]. *)
Fixpoint list_remove (d : Heading) (l : list Heading) : list Heading :=
  match l with
  | [] => []
  | h :: rest => if pair_eqb h d then rest else h :: list_remove d rest
  end.

(** The list [directions] once the opposite heading has been removed. *)
Definition candidates (self : Player.t) : list Heading :=
  let opposite_direction := opposite (Player.direction self) in
  if list_in opposite_direction all_directions
  then list_remove opposite_direction all_directions
  else all_directions.

(** One turn of the loop [for direction in directions]: [true] when the
    turn reaches [safe_directions.append(direction)]. *)
Definition direction_is_safe (self other_player : Player.t)
           (screen_width screen_height : Z) (d : Heading) : bool :=
  let test_x := Player.x self + fst d * move_distance in
  let test_y := Player.y self + snd d * move_distance in
  if (test_x <? 0) || (test_x >=? screen_width)
     || (test_y <? 0) || (test_y >=? screen_height)
  then false
  else
    let safe := negb (hits test_x test_y (removelast (Player.trail self))) in
    let safe :=
      if safe then negb (hits test_x test_y (Player.trail other_player))
      else safe in
    safe.

(** The loop that fills [safe_directions], the list built so far in
    [acc]. *)
Fixpoint find_safe (self other_player : Player.t)
         (screen_width screen_height : Z)
         (directions acc : list Heading) : list Heading :=
  match directions with
  | [] => acc
  | d :: rest =>
      if direction_is_safe self other_player screen_width screen_height d
      then find_safe self other_player screen_width screen_height rest
                     (acc ++ [d])
      else find_safe self other_player screen_width screen_height rest acc
  end.

(** [None] stands for the [IndexError] of [directions[0]] on an empty
    list. *)
Definition make_decision (self other_player : Player.t) (walls : list Cell)
           (screen_width screen_height : Z) : option Player.t :=
  if negb (Player.alive self) then Some self
  else
    let directions := candidates self in
    let safe_directions :=
      find_safe self other_player screen_width screen_height directions [] in
    let new_direction :=
      match safe_directions with
      | first_safe :: _ =>
          if list_in (Player.direction self) safe_directions
          then Some (Player.direction self)
          else Some first_safe
      | [] => hd_error directions
      end in
    match new_direction with
    | Some d => Some (Player.change_direction self d)
    | None => None
    end.

End AIPlayer.

(** ** class TronGame *)

Module TronGame.

(** The fields of the game object that the game logic reads or writes;
    [screen] is the size [self.screen.get_size()] answers. *)
Record t : Type := mk {
  fullscreen : bool;
  screen : Z * Z;
  state : GameState;
  game_over_timer : Z;
  winner : option string;
  player1 : option Player.t;
  player2 : option Player.t;
  ai_mode : bool;
  input_queue : list Key
}.

Definition init : t :=
  {| fullscreen := false; screen := (WINDOW_WIDTH, WINDOW_HEIGHT);
     state := MENU; game_over_timer := 0; winner := None;
     player1 := None; player2 := None; ai_mode := false;
     input_queue := [] |}.

Definition set_screen (g : t) (fs : bool) (sz : Z * Z) : t :=
  {| fullscreen := fs; screen := sz; state := state g;
     game_over_timer := game_over_timer g; winner := winner g;
     player1 := player1 g; player2 := player2 g; ai_mode := ai_mode g;
     input_queue := input_queue g |}.

Definition set_state (g : t) (s : GameState) : t :=
  {| fullscreen := fullscreen g; screen := screen g; state := s;
     game_over_timer := game_over_timer g; winner := winner g;
     player1 := player1 g; player2 := player2 g; ai_mode := ai_mode g;
     input_queue := input_queue g |}.

Definition set_game_over_timer (g : t) (ticks : Z) : t :=
  {| fullscreen := fullscreen g; screen := screen g; state := state g;
     game_over_timer := ticks; winner := winner g;
     player1 := player1 g; player2 := player2 g; ai_mode := ai_mode g;
     input_queue := input_queue g |}.

Definition set_winner (g : t) (w : option string) : t :=
  {| fullscreen := fullscreen g; screen := screen g; state := state g;
     game_over_timer := game_over_timer g; winner := w;
     player1 := player1 g; player2 := player2 g; ai_mode := ai_mode g;
     input_queue := input_queue g |}.

Definition set_player1 (g : t) (p : option Player.t) : t :=
  {| fullscreen := fullscreen g; screen := screen g; state := state g;
     game_over_timer := game_over_timer g; winner := winner g;
     player1 := p; player2 := player2 g; ai_mode := ai_mode g;
     input_queue := input_queue g |}.

Definition set_player2 (g : t) (p : option Player.t) : t :=
  {| fullscreen := fullscreen g; screen := screen g; state := state g;
     game_over_timer := game_over_timer g; winner := winner g;
     player1 := player1 g; player2 := p; ai_mode := ai_mode g;
     input_queue := input_queue g |}.

Definition set_ai_mode (g : t) (b : bool) : t :=
  {| fullscreen := fullscreen g; screen := screen g; state := state g;
     game_over_timer := game_over_timer g; winner := winner g;
     player1 := player1 g; player2 := player2 g; ai_mode := b;
     input_queue := input_queue g |}.

Definition set_input_queue (g : t) (q : list Key) : t :=
  {| fullscreen := fullscreen g; screen := screen g; state := state g;
     game_over_timer := game_over_timer g; winner := winner g;
     player1 := player1 g; player2 := player2 g; ai_mode := ai_mode g;
     input_queue := q |}.

(** [display_size] is the size of the display, which pygame gives to a
    surface opened with [set_mode((0, 0), pygame.FULLSCREEN)].  The
    surface opened with [set_mode((WINDOW_WIDTH, WINDOW_HEIGHT))] is
    taken to have the size asked for; pygame may answer another size,
    and no property below is about the size of the window. *)
Definition toggle_fullscreen (display_size : Z * Z) (g : t) : t :=
  let fs := negb (fullscreen g) in
  if fs then set_screen g fs display_size
  else set_screen g fs (WINDOW_WIDTH, WINDOW_HEIGHT).

Definition player1_controls : Controls :=
  [(K_UP, (0, -1)); (K_DOWN, (0, 1)); (K_LEFT, (-1, 0)); (K_RIGHT, (1, 0))].

Definition player2_controls : Controls :=
  [(K_w, (0, -1)); (K_s, (0, 1)); (K_a, (-1, 0)); (K_d, (1, 0))].

Definition reset_game (g : t) : t :=
  let '(screen_width, screen_height) := screen g in
  let grid_cols := screen_width / GRID_SIZE in
  let grid_rows := screen_height / GRID_SIZE in
  let player1_x := (grid_cols / 4) * GRID_SIZE in
  let player1_y := (grid_rows / 2) * GRID_SIZE in
  let g := set_player1 g
             (Some (Player.init player1_x player1_y NEON_BLUE
                                player1_controls "Player 1"%string)) in
  let g :=
    if ai_mode g then
      let player2_x := (3 * grid_cols / 4) * GRID_SIZE in
      let player2_y := (grid_rows / 2) * GRID_SIZE in
      set_player2 g
        (Some (AIPlayer.init player2_x player2_y NEON_ORANGE "AI"%string))
    else
      let player2_x := (3 * grid_cols / 4) * GRID_SIZE in
      let player2_y := (grid_rows / 2) * GRID_SIZE in
      set_player2 g
        (Some (Player.init player2_x player2_y NEON_ORANGE
                           player2_controls "Player 2"%string)) in
  let g := set_state g PLAYING in
  let g := set_game_over_timer g 0 in
  let g := set_winner g None in
  set_input_queue g [].

(** A Python exception that leaves the method ([AttributeError] on a
    player that is still [None]) is the result [None]. *)
Notation "'do' a <- e ; k" :=
  (match e with Some a => k | None => None end)
    (at level 10, a name, e at level 100, k at level 200).

(** The loop [for key, direction in controls.items(): if keys[key]: ...]
    of [handle_input]; [keys] is the answer of
    [pygame.key.get_pressed()]. *)
Fixpoint apply_pressed (keys : Key -> bool) (items : Controls)
         (p : Player.t) : Player.t :=
  match items with
  | [] => p
  | (key, direction) :: rest =>
      apply_pressed keys rest
        (if keys key then Player.change_direction p direction else p)
  end.

Definition handle_input (keys : Key -> bool) (g : t) : option t :=
  if GameState_eqb (state g) PLAYING then
    do p1 <- player1 g;
    let g := set_player1 g (Some (apply_pressed keys (Player.controls p1) p1)) in
    if negb (ai_mode g) then
      do p2 <- player2 g;
      Some (set_player2 g
              (Some (apply_pressed keys (Player.controls p2) p2)))
    else Some g
  else Some g.

(** The body of the [while] loop of [process_input_queue], for the key
    just popped. *)
Definition apply_key (key : Key) (g : t) : option t :=
  do p1 <- player1 g;
  let g :=
    match controls_get (Player.controls p1) key with
    | Some d => set_player1 g (Some (Player.change_direction p1 d))
    | None => g
    end in
  if negb (ai_mode g) then
    do p2 <- player2 g;
    match controls_get (Player.controls p2) key with
    | Some d => Some (set_player2 g (Some (Player.change_direction p2 d)))
    | None => Some g
    end
  else Some g.

(** [while self.input_queue and self.state == PLAYING]; [queue] is the
    content of [self.input_queue] at the loop test, written back when
    the loop ends. *)
Fixpoint process_loop (queue : list Key) (g : t) : option t :=
  match queue with
  | [] => Some (set_input_queue g [])
  | key :: rest =>
      if GameState_eqb (state g) PLAYING then
        do g' <- apply_key key g;
        process_loop rest g'
      else Some (set_input_queue g queue)
  end.

Definition process_input_queue (g : t) : option t :=
  process_loop (input_queue g) g.

(** [handle_key_event] either returns or ends the process through
    [sys.exit()]. *)
Inductive Outcome : Type :=
| Running (g : t)
| Exited.

Definition movement_keys_1 : list Key := [K_UP; K_DOWN; K_LEFT; K_RIGHT].
Definition movement_keys_2 : list Key := [K_w; K_s; K_a; K_d].

Definition key_in (key : Key) (l : list Key) : bool :=
  existsb (Key_eqb key) l.

Definition handle_key_event (display_size : Z * Z) (key : Key) (g : t)
  : Outcome :=
  let first :=
    if Key_eqb key K_f then Running (toggle_fullscreen display_size g)
    else if Key_eqb key K_ESCAPE then Exited
    else Running g in
  match first with
  | Exited => Exited
  | Running g =>
      match state g with
      | MENU =>
          if Key_eqb key K_1 then Running (reset_game (set_ai_mode g false))
          else if Key_eqb key K_2 then Running (reset_game (set_ai_mode g true))
          else Running g
      | GAME_OVER =>
          if Key_eqb key K_r then Running (reset_game g)
          else if Key_eqb key K_m then Running (set_state g MENU)
          else Running g
      | PLAYING =>
          if key_in key movement_keys_1 || key_in key movement_keys_2
          then Running (set_input_queue g (input_queue g ++ [key]))
          else Running g
      end
  end.

(** [ticks] is the answer of [pygame.time.get_ticks()].  The AI branch
    asks for both players at once: with [player1] still [None] the
    method raises in any case, at the latest in [self.player1.move()]. *)
Definition update (ticks : Z) (g : t) : option t :=
  if negb (GameState_eqb (state g) PLAYING) then Some g
  else
    do g <- process_input_queue g;
    do g <-
      (if ai_mode g
          && match player2 g with
             | Some p2 => AIPlayer.isinstance p2
             | None => false
             end
       then
         let '(screen_width, screen_height) := screen g in
         do p2 <- player2 g;
         do p1 <- player1 g;
         do p2' <- AIPlayer.make_decision p2 p1 [] screen_width screen_height;
         Some (set_player2 g (Some p2'))
       else Some g);
    let '(screen_width, screen_height) := screen g in
    do p1 <- player1 g;
    let p1 := Player.move p1 in
    do p2 <- player2 g;
    let p2 := Player.move p2 in
    let p1 :=
      if Player.check_collision p1 p2 [] screen_width screen_height
      then Player.crash p1 else p1 in
    let p2 :=
      if Player.check_collision p2 p1 [] screen_width screen_height
      then Player.crash p2 else p2 in
    let g := set_player2 (set_player1 g (Some p1)) (Some p2) in
    if negb (Player.alive p1) || negb (Player.alive p2) then
      let g := set_state g GAME_OVER in
      let g := set_game_over_timer g ticks in
      if negb (Player.alive p1) && negb (Player.alive p2)
      then Some (set_winner g (Some "Tie"%string))
      else if negb (Player.alive p1)
      then Some (set_winner g (Some (Player.name p2)))
      else Some (set_winner g (Some (Player.name p1)))
    else Some g.

(** An event of [pygame.event.get()], by its [type]: [QUIT], [KEYDOWN]
    with its [key], or any other type. *)
Inductive Event : Type :=
| QUIT
| KEYDOWN (key : Key)
| OTHER_EVENT.

(** The loop [for event in pygame.event.get()] of [run], with the value
    of [running]; [None] when [handle_key_event] leaves through
    [sys.exit()]. *)
Fixpoint handle_events (display_size : Z * Z) (events : list Event)
         (running : bool) (g : t) : option (bool * t) :=
  match events with
  | [] => Some (running, g)
  | QUIT :: rest => handle_events display_size rest false g
  | KEYDOWN key :: rest =>
      match handle_key_event display_size key g with
      | Exited => None
      | Running g' => handle_events display_size rest running g'
      end
  | OTHER_EVENT :: rest => handle_events display_size rest running g
  end.

(** What one turn of the main loop takes from outside: the pending
    events, the keys held down and the clock. *)
Record FrameInput : Type := mkFrameInput {
  frame_events : list Event;
  frame_pressed : Key -> bool;
  frame_ticks : Z
}.

(** How [run] stands after some turns of its loop: it left through the
    [sys.exit()] of the escape key, it raised, it left the loop on [QUIT]
    and ended with [pygame.quit(); sys.exit()], or it is still looping. *)
Inductive RunResult : Type :=
| RunEscaped
| RunRaised
| RunQuit (g : t)
| RunLooping (g : t).

(** The body of [while running]; drawing and the frame clock read the
    game and do not write it. *)
Definition run_frame (display_size : Z * Z) (input : FrameInput) (g : t)
  : RunResult :=
  match handle_events display_size (frame_events input) true g with
  | None => RunEscaped
  | Some (running, g) =>
      match handle_input (frame_pressed input) g with
      | None => RunRaised
      | Some g =>
          match update (frame_ticks input) g with
          | None => RunRaised
          | Some g => if running then RunLooping g else RunQuit g
          end
      end
  end.

(** [run], for the turns of the loop that [inputs] feeds. *)
Fixpoint run (display_size : Z * Z) (inputs : list FrameInput) (g : t)
  : RunResult :=
  match inputs with
  | [] => RunLooping g
  | input :: rest =>
      match run_frame display_size input g with
      | RunLooping g' => run display_size rest g'
      | stopped => stopped
      end
  end.

(** [main()]: [TronGame().run()]. *)
Definition main (display_size : Z * Z) (inputs : list FrameInput) : RunResult :=
  run display_size inputs init.

End TronGame.

(** * Predicates used in the statements *)

(** Two cells overlap: their coordinates differ by strictly less than
    [GRID_SIZE] on both axes. *)
Definition within_grid (px py : Z) (c : Cell) : Prop :=
  Z.abs (px - fst c) < GRID_SIZE /\ Z.abs (py - snd c) < GRID_SIZE.


(** The four unit headings. *)
Definition is_heading (d : Heading) : Prop :=
  d = (1, 0) \/ d = (-1, 0) \/ d = (0, 1) \/ d = (0, -1).


(** What one queued key does to a player: a change of direction when the
    key is bound in the player's controls, nothing otherwise. *)
Definition steer (p : Player.t) (key : Key) : Player.t :=
  match controls_get (Player.controls p) key with
  | Some d => Player.change_direction p d
  | None => p
  end.

(** The keys [handle_key_event] puts in the queue. *)
Definition is_movement_key (key : Key) : Prop :=
  In key [K_UP; K_DOWN; K_LEFT; K_RIGHT; K_w; K_s; K_a; K_d].

(** The player once it has moved and its collision with [other] has been
    looked at. *)
Definition after_collision (moved other : Player.t) (W H : Z) : Player.t :=
  if Player.check_collision moved other [] W H
  then Player.crash moved else moved.

(** Two players that differ at most in their heading. *)
Definition same_but_heading (q p : Player.t) : Prop :=
  Player.x q = Player.x p /\ Player.y q = Player.y p
  /\ Player.trail q = Player.trail p /\ Player.alive q = Player.alive p
  /\ Player.name q = Player.name p /\ Player.controls q = Player.controls p
  /\ Player.ai q = Player.ai p.

(** The player states that [move] and [change_direction] lead to from a
    newly built player, of the base class or of [AIPlayer]. *)
Inductive reachable : Player.t -> Prop :=
| reachable_player (x0 y0 : Z) (col : Color) (ctl : Controls) (nm : string) :
    reachable (Player.init x0 y0 col ctl nm)
| reachable_ai (x0 y0 : Z) (col : Color) (nm : string) :
    reachable (AIPlayer.init x0 y0 col nm)
| reachable_move (p : Player.t) :
    reachable p -> reachable (Player.move p)
| reachable_change_direction (p : Player.t) (d : Heading) :
    reachable p -> reachable (Player.change_direction p d).

(** Every trail cell is a whole number of steps away from the head, on
    each axis. *)
Definition on_lattice (p : Player.t) : Prop :=
  forall c, In c (Player.trail p) ->
            (move_distance | Player.x p - fst c)
            /\ (move_distance | Player.y p - snd c).

(** The game object after any number of turns of the main loop: key
    events, polling of the held keys, and updates. *)
Inductive game_reachable : TronGame.t -> Prop :=
| reachable_init : game_reachable TronGame.init
| reachable_key_event (display_size : Z * Z) (key : Key) (g g' : TronGame.t) :
    game_reachable g ->
    TronGame.handle_key_event display_size key g = TronGame.Running g' ->
    game_reachable g'
| reachable_handle_input (keys : Key -> bool) (g g' : TronGame.t) :
    game_reachable g ->
    TronGame.handle_input keys g = Some g' ->
    game_reachable g'
| reachable_update (ticks : Z) (g g' : TronGame.t) :
    game_reachable g ->
    TronGame.update ticks g = Some g' ->
    game_reachable g'.

(** While the game is in play both players exist, are alive and carry
    the names [reset_game] gave them, and no winner is recorded. *)
Definition in_play (g : TronGame.t) : Prop :=
  TronGame.state g = PLAYING ->
  exists p1 p2,
    TronGame.player1 g = Some p1 /\ TronGame.player2 g = Some p2
    /\ Player.alive p1 = true /\ Player.alive p2 = true
    /\ Player.name p1 = "Player 1"%string
    /\ (Player.name p2 = "Player 2"%string \/ Player.name p2 = "AI"%string)
    /\ TronGame.winner g = None.

(** A number that every double in reach of it represents exactly. *)
Definition fits_exactly (v : Z) : Prop := Z.abs v <= exact_limit.

(** The numbers of one step [coord + d * move_distance] all stay where
    doubles are exact. *)
Definition step_in_exact_range (coord d : Z) : Prop :=
  fits_exactly coord /\ fits_exactly d
  /\ fits_exactly (d * move_distance)
  /\ fits_exactly (coord + d * move_distance).

(** The numbers of one [move] of [p] all stay where doubles are exact:
    the coordinates, the heading, the step and the new coordinates. *)
Definition in_exact_range (p : Player.t) : Prop :=
  fits_exactly (Player.x p) /\ fits_exactly (Player.y p)
  /\ fits_exactly (fst (Player.direction p))
  /\ fits_exactly (snd (Player.direction p))
  /\ fits_exactly (fst (Player.direction p) * move_distance)
  /\ fits_exactly (snd (Player.direction p) * move_distance)
  /\ fits_exactly (Player.x p + fst (Player.direction p) * move_distance)
  /\ fits_exactly (Player.y p + snd (Player.direction p) * move_distance).

(** The player states that [move], with its floating-point arithmetic,
    and [change_direction] lead to from a newly built player, every move
    of an alive player being made within the exact range. *)
Inductive reachable_exactly : Player.t -> Prop :=
| reachable_exactly_player
    (x0 y0 : Z) (col : Color) (ctl : Controls) (nm : string) :
    reachable_exactly (Player.init x0 y0 col ctl nm)
| reachable_exactly_ai (x0 y0 : Z) (col : Color) (nm : string) :
    reachable_exactly (AIPlayer.init x0 y0 col nm)
| reachable_exactly_move (p p' : Player.t) :
    reachable_exactly p ->
    (Player.alive p = true -> in_exact_range p) ->
    Player.move_float p = Player.Moved p' ->
    reachable_exactly p'
| reachable_exactly_change_direction (p : Player.t) (d : Heading) :
    reachable_exactly p ->
    reachable_exactly (Player.change_direction p d).

(** The winner [update] records when the game is over. *)
Definition verdict (p1 p2 : Player.t) : string :=
  if negb (Player.alive p1) && negb (Player.alive p2) then "Tie"
  else if negb (Player.alive p1) then Player.name p2
  else Player.name p1.

(** What holds of a player of a running game: a unit heading, a trail of
    at most 1000 cells that ends on the position, all cells on the
    lattice of the position. *)
Definition player_inv (p : Player.t) : Prop :=
  is_heading (Player.direction p)
  /\ (exists older, Player.trail p = older ++ [(Player.x p, Player.y p)])
  /\ (length (Player.trail p) <= 1000)%nat
  /\ on_lattice p.

(** Who the two players are: player one is a human on the arrow keys,
    player two the AI without controls in AI mode and a human on WASD
    otherwise. *)
Definition roles (ai_mode : bool) (p1 p2 : Player.t) : Prop :=
  Player.name p1 = "Player 1"%string
  /\ Player.controls p1 = TronGame.player1_controls
  /\ Player.ai p1 = None
  /\ (if ai_mode
      then Player.name p2 = "AI"%string /\ Player.controls p2 = []
           /\ Player.ai p2 = Some (0, 100)
      else Player.name p2 = "Player 2"%string
           /\ Player.controls p2 = TronGame.player2_controls
           /\ Player.ai p2 = None).

(** What the state says about the players and the winner. *)
Definition phase_inv (g : TronGame.t) (p1 p2 : Player.t) : Prop :=
  match TronGame.state g with
  | MENU => True
  | PLAYING =>
      Player.alive p1 = true /\ Player.alive p2 = true
      /\ TronGame.winner g = None
  | GAME_OVER =>
      (Player.alive p1 = false \/ Player.alive p2 = false)
      /\ TronGame.winner g = Some (verdict p1 p2)
  end.

(** The invariant of the game object. *)
Definition game_inv (g : TronGame.t) : Prop :=
  (TronGame.fullscreen g = false ->
   TronGame.screen g = (WINDOW_WIDTH, WINDOW_HEIGHT))
  /\ Forall is_movement_key (TronGame.input_queue g)
  /\ (TronGame.state g <> PLAYING -> TronGame.input_queue g = [])
  /\ ((TronGame.player1 g = None /\ TronGame.player2 g = None
       /\ TronGame.state g = MENU)
      \/ exists p1 p2,
          TronGame.player1 g = Some p1 /\ TronGame.player2 g = Some p2
          /\ player_inv p1 /\ player_inv p2
          /\ roles (TronGame.ai_mode g) p1 p2
          /\ phase_inv g p1 p2).

(** Every heading bound in a controls dictionary is a unit heading. *)
Definition unit_controls (c : Controls) : Prop :=
  Forall (fun binding => is_heading (snd binding)) c.

(** * Sample players and games *)

Definition player_at (x0 y0 : Z) : Player.t :=
  Player.init x0 y0 NEON_BLUE TronGame.player1_controls "Player 1".


Definition ai_at (x0 y0 : Z) : Player.t :=
  AIPlayer.init x0 y0 NEON_ORANGE "AI".

Definition finished_game : TronGame.t :=
  TronGame.mk false (1400, 900) GAME_OVER 4200 (Some "Player 1"%string)
              (Some (player_at 700 440))
              (Some (Player.crash (ai_at 710 470)))
              true [].

Definition player_two_at (x0 y0 : Z) : Player.t :=
  Player.init x0 y0 NEON_ORANGE TronGame.player2_controls "Player 2".

(** Two players one step apart, heading for the same cell. *)
Definition head_on_game : TronGame.t :=
  TronGame.mk false (1400, 900) PLAYING 0 None
              (Some (player_at 100 200))
              (Some (Player.set_direction (player_two_at 160 200) (-1, 0)))
              false [].

(** Player one heads right; "up" then "left" are waiting in the queue. *)
Definition queued_game : TronGame.t :=
  TronGame.mk false (1400, 900) PLAYING 0 None
              (Some (player_at 340 440)) (Some (player_two_at 1040 440))
              false [K_UP; K_LEFT].

(** A player that has gone once round a square and is back on its first
    cell. *)
Definition round_trip : Player.t :=
  Player.move
    (Player.change_direction
       (Player.move
          (Player.change_direction
             (Player.move
                (Player.change_direction
                   (Player.move (player_at 100 200)) (0, 1)))
             (-1, 0)))
       (0, -1)).

(** The game right after "1" (two players) or "2" (AI) in the menu of a
    new game object. *)
Definition started_game : TronGame.t :=
  TronGame.reset_game (TronGame.set_ai_mode TronGame.init false).

Definition started_ai_game : TronGame.t :=
  TronGame.reset_game (TronGame.set_ai_mode TronGame.init true).

(** "1" in the menu, then nobody touches a key for twelve more turns of
    the loop: player two runs into the right wall. *)
Definition idle_frame : TronGame.FrameInput :=
  TronGame.mkFrameInput [] (fun _ => false) 0.

Definition wall_crash_inputs : list TronGame.FrameInput :=
  TronGame.mkFrameInput [TronGame.KEYDOWN K_1] (fun _ => false) 0
  :: repeat idle_frame 12.

Definition wall_crash_game : TronGame.t :=
  match TronGame.main (1920, 1080) wall_crash_inputs with
  | TronGame.RunLooping g => g
  | _ => TronGame.init
  end.


(** A new player one past the last whole number that doubles hold
    without a gap. *)
Definition far_player : Player.t :=
  Player.init (2 ^ 53 + 1) 0 NEON_BLUE TronGame.player1_controls "Player 1".

(** * Properties *)

(** ** The tests on pairs and cells *)

Lemma pair_eqb_true (a b : Z * Z) : pair_eqb a b = true <-> a = b.
Proof.
  destruct a as [a1 a2], b as [b1 b2]; unfold pair_eqb; simpl.
  rewrite andb_true_iff, !Z.eqb_eq.
  split; [intros [-> ->]; reflexivity | intros E; inversion E; auto].
Qed.

Lemma pair_eqb_sym (a b : Z * Z) : pair_eqb a b = pair_eqb b a.
Proof.
  unfold pair_eqb. now rewrite (Z.eqb_sym (fst a)), (Z.eqb_sym (snd a)).
Qed.

Lemma pair_eqb_false (a b : Z * Z) : pair_eqb a b = false <-> a <> b.
Proof.
  rewrite <- pair_eqb_true. destruct (pair_eqb a b); intuition congruence.
Qed.

Lemma overlaps_true (px py : Z) (c : Cell) :
  overlaps px py c = true <-> within_grid px py c.
Proof.
  unfold overlaps, within_grid.
  rewrite andb_true_iff, !Z.ltb_lt. reflexivity.
Qed.

Lemma hits_true (px py : Z) (cells : list Cell) :
  hits px py cells = true <-> exists c, In c cells /\ within_grid px py c.
Proof.
  induction cells as [|c rest IH]; simpl.
  - split; [discriminate | intros (c & [] & _)].
  - destruct (overlaps px py c) eqn:E.
    + split; auto. intros _. exists c. split; auto. now apply overlaps_true.
    + rewrite IH. split.
      * intros (c' & Hin & Hw). exists c'. auto.
      * intros (c' & [<- | Hin] & Hw).
        -- apply overlaps_true in Hw. congruence.
        -- exists c'. auto.
Qed.



Lemma is_heading_nonzero (d : Heading) : is_heading d -> d <> opposite d.
Proof.
  intros [-> | [-> | [-> | ->]]]; unfold opposite; simpl; congruence.
Qed.

Lemma is_heading_opposite (d : Heading) : is_heading d -> is_heading (opposite d).
Proof.
  unfold is_heading, opposite.
  intros [-> | [-> | [-> | ->]]]; simpl; auto.
Qed.

(** ** Player.check_collision *)


(** ** Player.change_direction *)

Lemma change_direction_cases (p : Player.t) (d : Heading) :
  Player.change_direction p d =
    if Player.alive p
    then if pair_eqb d (opposite (Player.direction p))
         then p else Player.set_direction p d
    else p.
Proof.
  unfold Player.change_direction.
  destruct (Player.alive p); simpl; auto.
  destruct (pair_eqb d _); reflexivity.
Qed.

Lemma change_direction_heading (p : Player.t) (d : Heading) :
  is_heading (Player.direction p) -> is_heading d ->
  is_heading (Player.direction (Player.change_direction p d)).
Proof.
  intros Hp Hd. rewrite change_direction_cases.
  destruct (Player.alive p); auto.
  destruct (pair_eqb d _); auto.
Qed.

Lemma change_direction_not_reversed (p : Player.t) (d : Heading) :
  is_heading (Player.direction p) ->
  Player.direction (Player.change_direction p d)
  <> opposite (Player.direction p).
Proof.
  intros Hp. rewrite change_direction_cases.
  destruct (Player.alive p).
  - destruct (pair_eqb d _) eqn:E.
    + now apply is_heading_nonzero.
    + simpl. now apply pair_eqb_false.
  - now apply is_heading_nonzero.
Qed.

Lemma change_direction_sequence_heading (ds : list Heading) (p : Player.t) :
  is_heading (Player.direction p) -> Forall is_heading ds ->
  is_heading (Player.direction (fold_left Player.change_direction ds p)).
Proof.
  revert p. induction ds as [|d ds IH]; intros p Hp Hds; simpl; auto.
  inversion Hds; subst. apply IH; auto.
  now apply change_direction_heading.
Qed.

(** C4.  For an alive player, [change_direction d] makes [d] the heading
    exactly when [d] is not the componentwise negation of the current
    heading, and otherwise returns the player as it was; and after any
    sequence of calls, one more call never leaves the heading opposite to
    the one held just before that call. *)
Theorem change_direction_no_reversal (p : Player.t) (d : Heading) :
  is_heading (Player.direction p) ->
  is_heading d ->
  (Player.alive p = true ->
   (Player.direction (Player.change_direction p d) = d
    <-> d <> opposite (Player.direction p))
   /\ (d = opposite (Player.direction p) -> Player.change_direction p d = p))
  /\ (forall ds : list Heading,
        Forall is_heading ds ->
        let before := fold_left Player.change_direction ds p in
        Player.direction (Player.change_direction before d)
        <> opposite (Player.direction before)).
Proof.
  intros Hp Hd. split.
  - intros Ha. rewrite change_direction_cases, Ha. split.
    + destruct (pair_eqb d _) eqn:E.
      * apply pair_eqb_true in E. split.
        -- intros Heq. exfalso.
           apply (is_heading_nonzero _ Hp). congruence.
        -- intros Hne. contradiction.
      * apply pair_eqb_false in E. simpl. tauto.
    + intros ->.
      replace (pair_eqb _ _) with true; auto.
      symmetry. now apply pair_eqb_true.
  - intros ds Hds before.
    apply change_direction_not_reversed.
    now apply change_direction_sequence_heading.
Qed.

Lemma change_direction_no_reversal_witness :
  Player.direction (Player.change_direction (player_at 100 200) (-1, 0)) = (1, 0)
  /\ Player.direction (Player.change_direction (player_at 100 200) (0, 1)) = (0, 1)
  /\ Player.direction
       (Player.change_direction
          (fold_left Player.change_direction [(0, 1); (-1, 0)] (player_at 100 200))
          (1, 0))
     <> (1, 0).
Proof.
  assert (H1 : is_heading (Player.direction (player_at 100 200)))
    by (left; reflexivity).
  assert (Hl : is_heading (-1, 0)) by (right; left; reflexivity).
  assert (Hd : is_heading (0, 1)) by (right; right; left; reflexivity).
  assert (Hr : is_heading (1, 0)) by (left; reflexivity).
  split; [reflexivity | split].
  - apply (proj1 (change_direction_no_reversal (player_at 100 200) (0, 1) H1 Hd)
                 eq_refl).
    simpl. discriminate.
  - exact (proj2 (change_direction_no_reversal (player_at 100 200) (1, 0) H1 Hr)
                 [(0, 1); (-1, 0)]
                 (Forall_cons _ Hd (Forall_cons _ Hl (Forall_nil _)))).
Defined.

(** ** Player.move *)

Lemma move_distance_value : 2 * move_distance = 3 * GRID_SIZE.
Proof. reflexivity. Qed.

Lemma slice_last_short {A : Type} (k : nat) (l : list A) :
  (length l <= k)%nat -> slice_last k l = l.
Proof.
  intros Hle. unfold slice_last.
  replace (length l - k)%nat with 0%nat by lia. reflexivity.
Qed.

Lemma slice_last_length {A : Type} (k : nat) (l : list A) :
  length (slice_last k l) = Nat.min k (length l).
Proof. unfold slice_last. rewrite length_skipn. lia. Qed.

Lemma move_alive (p : Player.t) :
  Player.alive p = true ->
  let nx := Player.x p + fst (Player.direction p) * move_distance in
  let ny := Player.y p + snd (Player.direction p) * move_distance in
  Player.move p =
    Player.mk nx ny (Player.color p) (Player.controls p) (Player.name p)
              (Player.direction p)
              (slice_last 1000 (Player.trail p ++ [(nx, ny)]))
              true (Player.speed p) (Player.ai p).
Proof.
  intros Ha nx ny. unfold Player.move. rewrite Ha. simpl.
  fold nx ny.
  destruct (Nat.ltb_spec 1000 (length (Player.trail p ++ [(nx, ny)]))) as [Hlt | Hle].
  - unfold Player.set_trail, Player.set_position; simpl. now rewrite Ha.
  - unfold Player.set_trail, Player.set_position; simpl.
    rewrite slice_last_short by exact Hle. now rewrite Ha.
Qed.

(** *** Floating point *)

Lemma exact_below_double : exact_limit < double_limit.
Proof. vm_compute. reflexivity. Qed.

Lemma round_double_exact (v : Z) : fits_exactly v -> round_double v = v.
Proof.
  unfold fits_exactly, exact_limit. intros Hv.
  destruct (Z.eq_dec (Z.abs v) (2 ^ 53)) as [Hmax | Hless].
  - destruct (Z.abs_eq_or_opp v) as [E | E]; rewrite E in Hmax.
    + subst v. vm_compute. reflexivity.
    + assert (v = - 2 ^ 53) by lia. subst v. vm_compute. reflexivity.
  - unfold round_double.
    assert (Hlog : Z.log2 (Z.abs v) - 52 <= 0).
    { destruct (Z.eq_dec (Z.abs v) 0) as [E0 | Hpos].
      - rewrite E0. simpl. lia.
      - assert (Z.log2 (Z.abs v) < 53); [|lia].
        apply Z.log2_lt_pow2; lia. }
    rewrite Z.max_l by exact Hlog.
    change (2 ^ 0) with 1. cbv zeta.
    rewrite Z.div_1_r, Z.mod_1_r. simpl. lia.
Qed.

Lemma float_of_int_exact (v : Z) : fits_exactly v -> float_of_int v = Some v.
Proof.
  intros Hv. unfold float_of_int. rewrite (round_double_exact v Hv). cbv zeta.
  pose proof exact_below_double as Hlim. unfold fits_exactly in Hv.
  destruct (Z.ltb_spec (Z.abs v) double_limit); [reflexivity | lia].
Qed.

Lemma float_step_exact (coord d : Z) :
  fits_exactly coord -> fits_exactly d ->
  fits_exactly (d * move_distance) ->
  fits_exactly (coord + d * move_distance) ->
  float_step coord d = Some (Finite (coord + d * move_distance)).
Proof.
  intros Hc Hd Hp Hs. unfold float_step.
  rewrite (float_of_int_exact d Hd), (float_of_int_exact coord Hc).
  pose proof exact_below_double as Hlim.
  unfold float_mul. rewrite (round_double_exact _ Hp). cbv zeta.
  unfold fits_exactly in Hp, Hs.
  destruct (Z.ltb_spec (Z.abs (d * move_distance)) double_limit); [|lia].
  unfold float_add. rewrite (round_double_exact _ Hs). cbv zeta.
  destruct (Z.ltb_spec (Z.abs (coord + d * move_distance)) double_limit);
    [reflexivity | lia].
Qed.

Lemma move_advance (p : Player.t) :
  Player.alive p = true ->
  Player.move p
  = Player.advance p (Player.x p + fst (Player.direction p) * move_distance)
                     (Player.y p + snd (Player.direction p) * move_distance).
Proof. intros Ha. unfold Player.move, Player.advance. now rewrite Ha. Qed.

(** Within the exact range the floating-point [move] is the exact one. *)
Lemma move_float_exact (p : Player.t) :
  (Player.alive p = true -> in_exact_range p) ->
  Player.move_float p = Player.Moved (Player.move p).
Proof.
  intros Hr. unfold Player.move_float.
  destruct (Player.alive p) eqn:Ha; simpl.
  - destruct (Hr eq_refl) as (Hx & Hy & Hdx & Hdy & Hpx & Hpy & Hsx & Hsy).
    rewrite (float_step_exact _ _ Hx Hdx Hpx Hsx).
    rewrite (float_step_exact _ _ Hy Hdy Hpy Hsy).
    now rewrite (move_advance p Ha).
  - unfold Player.move. now rewrite Ha.
Qed.






(** ** AIPlayer.make_decision *)



Lemma find_safe_filter (self other : Player.t) (W H : Z)
      (directions acc : list Heading) :
  AIPlayer.find_safe self other W H directions acc
  = acc ++ filter (AIPlayer.direction_is_safe self other W H) directions.
Proof.
  revert acc. induction directions as [|d rest IH]; intros acc; simpl.
  - now rewrite app_nil_r.
  - destruct (AIPlayer.direction_is_safe self other W H d).
    + rewrite IH, <- app_assoc. reflexivity.
    + apply IH.
Qed.


(** The enumeration order is that of the literal, and removing the first
    occurrence of the opposite heading removes every occurrence. *)
Lemma candidates_filter (self : Player.t) :
  AIPlayer.candidates self
  = filter (fun d => negb (pair_eqb d (opposite (Player.direction self))))
           [(1, 0); (-1, 0); (0, 1); (0, -1)].
Proof.
  unfold AIPlayer.candidates, AIPlayer.list_in, AIPlayer.all_directions.
  set (o := opposite (Player.direction self)).
  cbn [existsb AIPlayer.list_remove filter].
  rewrite !(pair_eqb_sym o).
  destruct (pair_eqb (1, 0) o) eqn:E1, (pair_eqb (-1, 0) o) eqn:E2,
           (pair_eqb (0, 1) o) eqn:E3, (pair_eqb (0, -1) o) eqn:E4;
    cbn [orb negb]; try reflexivity;
    repeat match goal with
           | E : pair_eqb _ _ = true |- _ => apply pair_eqb_true in E
           end; congruence.
Qed.


Lemma candidates_heading (self : Player.t) (d : Heading) :
  In d (AIPlayer.candidates self) -> is_heading d.
Proof.
  rewrite candidates_filter, filter_In. intros [Hd _].
  unfold is_heading. simpl in Hd. intuition.
Qed.


Lemma candidates_nonempty (self : Player.t) :
  exists d rest, AIPlayer.candidates self = d :: rest.
Proof.
  rewrite candidates_filter.
  set (o := opposite (Player.direction self)).
  cbn [filter].
  destruct (pair_eqb (1, 0) o) eqn:E1; cbn [negb]; [| eauto].
  destruct (pair_eqb (-1, 0) o) eqn:E2; cbn [negb]; [| eauto].
  apply pair_eqb_true in E1, E2. congruence.
Qed.



Lemma filter_none {A : Type} (f : A -> bool) (l : list A) :
  Forall (fun e => f e = false) l -> filter f l = [].
Proof.
  intros Hl. induction Hl as [|e l He _ IH]; simpl; auto. now rewrite He.
Qed.

(** [make_decision] never raises. *)
Lemma make_decision_total (self other : Player.t) (walls : list Cell) (W H : Z) :
  exists self', AIPlayer.make_decision self other walls W H = Some self'.
Proof.
  unfold AIPlayer.make_decision.
  destruct (negb (Player.alive self)); [eauto|].
  destruct (AIPlayer.find_safe _ _ _ _ _ _) as [|s ss].
  - destruct (candidates_nonempty self) as (d & rest & ->). simpl. eauto.
  - destruct (AIPlayer.list_in _ _); eauto.
Qed.



(** ** Dead players *)

(** C7.  Once [alive] is false, [move], [change_direction] and (for an AI
    player) [make_decision] return the player as it was: position,
    heading and trail are unchanged. *)
Theorem dead_player_unchanged (p : Player.t) :
  Player.alive p = false ->
  Player.move p = p
  /\ (forall d, Player.change_direction p d = p)
  /\ (forall other walls W H,
        AIPlayer.make_decision p other walls W H = Some p).
Proof.
  intros Hd. unfold Player.move, Player.change_direction, AIPlayer.make_decision.
  rewrite Hd. simpl. auto.
Qed.

Lemma dead_player_unchanged_witness :
  Player.move (Player.crash (ai_at 1040 440)) = Player.crash (ai_at 1040 440)
  /\ Player.change_direction (Player.crash (ai_at 1040 440)) (0, 1)
     = Player.crash (ai_at 1040 440)
  /\ AIPlayer.make_decision (Player.crash (ai_at 1040 440)) (player_at 1010 440)
                            [] 1400 900
     = Some (Player.crash (ai_at 1040 440)).
Proof.
  destruct (dead_player_unchanged (Player.crash (ai_at 1040 440)) eq_refl)
    as (Hm & Hc & Hd).
  split; [exact Hm | split; [apply Hc | apply Hd]].
Defined.

(** ** TronGame.reset_game *)

Lemma reset_game_start (g : TronGame.t) :
  let W := fst (TronGame.screen g) in
  let H := snd (TronGame.screen g) in
  exists p1 p2,
    TronGame.player1 (TronGame.reset_game g) = Some p1
    /\ TronGame.player2 (TronGame.reset_game g) = Some p2
    /\ TronGame.state (TronGame.reset_game g) = PLAYING
    /\ TronGame.winner (TronGame.reset_game g) = None
    /\ TronGame.input_queue (TronGame.reset_game g) = []
    /\ Player.x p1 = W / GRID_SIZE / 4 * GRID_SIZE
    /\ Player.x p2 = 3 * (W / GRID_SIZE) / 4 * GRID_SIZE
    /\ Player.y p1 = H / GRID_SIZE / 2 * GRID_SIZE
    /\ Player.y p2 = H / GRID_SIZE / 2 * GRID_SIZE
    /\ Player.trail p1 = [(Player.x p1, Player.y p1)]
    /\ Player.trail p2 = [(Player.x p2, Player.y p2)]
    /\ Player.alive p1 = true /\ Player.alive p2 = true
    /\ Player.direction p1 = (1, 0)
    /\ Player.direction p2 = (if TronGame.ai_mode g then (-1, 0) else (1, 0)).
Proof.
  destruct g as [fs [W H] st tm wn q1 q2 am iq]. simpl.
  unfold TronGame.reset_game. simpl.
  destruct am; simpl; do 2 eexists; repeat split.
Qed.

(** The start columns are the grid columns of one quarter and of three
    quarters of the width, rounded down to the grid. *)
Lemma reset_game_columns (W : Z) :
  let x1 := W / GRID_SIZE / 4 * GRID_SIZE in
  let x2 := 3 * (W / GRID_SIZE) / 4 * GRID_SIZE in
  4 * x1 <= W < 4 * x1 + 4 * GRID_SIZE
  /\ 4 * x2 <= 3 * W < 4 * x2 + 6 * GRID_SIZE.
Proof.
  unfold GRID_SIZE. cbv zeta.
  pose proof (Z.div_mod W 20 ltac:(lia)) as H1.
  pose proof (Z.mod_pos_bound W 20 ltac:(lia)) as H2.
  pose proof (Z.div_mod (W / 20) 4 ltac:(lia)) as H3.
  pose proof (Z.mod_pos_bound (W / 20) 4 ltac:(lia)) as H4.
  pose proof (Z.div_mod (3 * (W / 20)) 4 ltac:(lia)) as H5.
  pose proof (Z.mod_pos_bound (3 * (W / 20)) 4 ltac:(lia)) as H6.
  lia.
Qed.

(** C3.  Selecting the two-player mode from the menu of a fresh game
    (window 1400 x 900) starts play with player one at (340, 440) and
    player two at (1040, 440), and both of them heading right: player two
    does not face player one, unlike the AI opponent, which is made to
    head left. *)
Theorem reset_game_two_player_headings (display_size : Z * Z) :
  exists g p1 p2 ai,
    TronGame.handle_key_event display_size K_1 TronGame.init = TronGame.Running g
    /\ TronGame.state g = PLAYING
    /\ TronGame.player1 g = Some p1
    /\ TronGame.player2 g = Some p2
    /\ (Player.x p1, Player.y p1) = (340, 440)
    /\ (Player.x p2, Player.y p2) = (1040, 440)
    /\ Player.direction p1 = (1, 0)
    /\ Player.direction p2 = (1, 0)
    /\ TronGame.player2 (TronGame.reset_game (TronGame.set_ai_mode g true))
       = Some ai
    /\ (Player.x ai, Player.y ai) = (1040, 440)
    /\ Player.direction ai = (-1, 0).
Proof.
  do 4 eexists. repeat split.
Qed.

(** ** TronGame.update outside play *)

Lemma update_outside_play (ticks : Z) (g : TronGame.t) :
  TronGame.state g <> PLAYING -> TronGame.update ticks g = Some g.
Proof.
  intros Hs. unfold TronGame.update.
  destruct (TronGame.state g); try reflexivity. congruence.
Qed.

(** C10.  In the menu and after the game is over, [update] returns at
    once: players, winner, timer, queue and state are what they were. *)
Theorem update_not_playing (ticks : Z) (g : TronGame.t) :
  TronGame.state g = MENU \/ TronGame.state g = GAME_OVER ->
  TronGame.update ticks g = Some g.
Proof.
  intros [Hs | Hs]; apply update_outside_play; rewrite Hs; discriminate.
Qed.

Lemma update_not_playing_witness :
  TronGame.update 5000 TronGame.init = Some TronGame.init
  /\ TronGame.update 5000 finished_game = Some finished_game.
Proof.
  split.
  - apply (update_not_playing 5000 TronGame.init). left. reflexivity.
  - apply (update_not_playing 5000 finished_game). right. reflexivity.
Defined.

(** ** The input queue *)

Lemma change_direction_frame (p : Player.t) (d : Heading) :
  Player.x (Player.change_direction p d) = Player.x p
  /\ Player.y (Player.change_direction p d) = Player.y p
  /\ Player.trail (Player.change_direction p d) = Player.trail p
  /\ Player.alive (Player.change_direction p d) = Player.alive p
  /\ Player.name (Player.change_direction p d) = Player.name p
  /\ Player.controls (Player.change_direction p d) = Player.controls p
  /\ Player.ai (Player.change_direction p d) = Player.ai p.
Proof.
  rewrite change_direction_cases.
  destruct p as [px py col ctl nm dir tr al sp a]; simpl.
  destruct al; [destruct (pair_eqb d _)|]; simpl; repeat split; reflexivity.
Qed.

Lemma same_but_heading_refl (p : Player.t) : same_but_heading p p.
Proof. unfold same_but_heading. auto 10. Qed.

Lemma same_but_heading_trans (r q p : Player.t) :
  same_but_heading r q -> same_but_heading q p -> same_but_heading r p.
Proof. unfold same_but_heading. intuition congruence. Qed.

Lemma steer_same (p : Player.t) (key : Key) : same_but_heading (steer p key) p.
Proof.
  unfold steer. destruct (controls_get _ _).
  - apply change_direction_frame.
  - apply same_but_heading_refl.
Qed.

Lemma steer_all_same (queue : list Key) (p : Player.t) :
  same_but_heading (fold_left steer queue p) p.
Proof.
  revert p. induction queue as [|key rest IH]; intros p; simpl.
  - apply same_but_heading_refl.
  - eapply same_but_heading_trans; [apply IH | apply steer_same].
Qed.

Lemma apply_key_players (key : Key) (g : TronGame.t) (p1 p2 : Player.t) :
  TronGame.player1 g = Some p1 -> TronGame.player2 g = Some p2 ->
  TronGame.apply_key key g
  = Some (TronGame.mk (TronGame.fullscreen g) (TronGame.screen g)
                      (TronGame.state g) (TronGame.game_over_timer g)
                      (TronGame.winner g)
                      (Some (steer p1 key))
                      (Some (if TronGame.ai_mode g then p2 else steer p2 key))
                      (TronGame.ai_mode g) (TronGame.input_queue g)).
Proof.
  destruct g as [fs sc st tm wn q1 q2 am iq]. simpl. intros -> ->.
  unfold TronGame.apply_key, steer. simpl.
  destruct (controls_get (Player.controls p1) key); simpl;
    destruct am; simpl; auto;
    destruct (controls_get (Player.controls p2) key); reflexivity.
Qed.

(** In play, the loop empties the queue, oldest key first. *)
Lemma process_loop_playing (queue : list Key) :
  forall (g : TronGame.t) (p1 p2 : Player.t),
  TronGame.state g = PLAYING ->
  TronGame.player1 g = Some p1 -> TronGame.player2 g = Some p2 ->
  TronGame.process_loop queue g
  = Some (TronGame.mk (TronGame.fullscreen g) (TronGame.screen g)
                      PLAYING (TronGame.game_over_timer g)
                      (TronGame.winner g)
                      (Some (fold_left steer queue p1))
                      (Some (if TronGame.ai_mode g then p2
                             else fold_left steer queue p2))
                      (TronGame.ai_mode g) []).
Proof.
  induction queue as [|key rest IH]; intros g p1 p2 Hs H1 H2.
  - destruct g as [fs sc st tm wn q1 q2 am iq]. simpl in *. subst.
    unfold TronGame.set_input_queue. simpl. now destruct am.
  - cbn [TronGame.process_loop fold_left]. rewrite Hs.
    cbn [GameState_eqb].
    rewrite (apply_key_players key g p1 p2 H1 H2).
    rewrite (IH _ (steer p1 key)
                (if TronGame.ai_mode g then p2 else steer p2 key));
      try reflexivity; auto.
    cbn. now destruct (TronGame.ai_mode g).
Qed.

(** Out of play, the loop leaves the queue and everything else alone. *)
Lemma process_input_queue_not_playing (g : TronGame.t) :
  TronGame.state g <> PLAYING -> TronGame.process_input_queue g = Some g.
Proof.
  intros Hs. unfold TronGame.process_input_queue.
  destruct g as [fs sc st tm wn q1 q2 am iq]. simpl in *.
  destruct iq as [|key rest]; simpl; [reflexivity|].
  destruct st; simpl; try reflexivity. congruence.
Qed.

(** ** TronGame.update in play *)

Lemma check_collision_other_trail
      (self o o' : Player.t) (walls : list Cell) (W H : Z) :
  Player.trail o = Player.trail o' ->
  Player.check_collision self o walls W H
  = Player.check_collision self o' walls W H.
Proof. intros E. unfold Player.check_collision. now rewrite E. Qed.

Lemma after_collision_trail (moved other : Player.t) (W H : Z) :
  Player.trail (after_collision moved other W H) = Player.trail moved.
Proof.
  unfold after_collision. now destruct (Player.check_collision _ _ _ _ _).
Qed.

Lemma after_collision_alive (moved other : Player.t) (W H : Z) :
  Player.alive moved = true ->
  Player.alive (after_collision moved other W H)
  = negb (Player.check_collision moved other [] W H).
Proof.
  intros Ha. unfold after_collision.
  now destruct (Player.check_collision _ _ _ _ _).
Qed.

Lemma after_collision_name (moved other : Player.t) (W H : Z) :
  Player.name (after_collision moved other W H) = Player.name moved.
Proof.
  unfold after_collision. now destruct (Player.check_collision _ _ _ _ _).
Qed.

Lemma move_name (p : Player.t) : Player.name (Player.move p) = Player.name p.
Proof.
  unfold Player.move.
  destruct (negb (Player.alive p)); auto. cbv zeta.
  now destruct (_ <? _)%nat.
Qed.

(** One tick in play, written out: the queue is drained, the AI decides,
    both players move, each is tested against the other as moved, and
    the state, the timer and the winner follow from who is left alive. *)
Lemma update_playing_explicit
      (ticks : Z) (g : TronGame.t) (p1 p2 : Player.t) :
  TronGame.state g = PLAYING ->
  TronGame.player1 g = Some p1 -> TronGame.player2 g = Some p2 ->
  let W := fst (TronGame.screen g) in
  let H := snd (TronGame.screen g) in
  let q1 := fold_left steer (TronGame.input_queue g) p1 in
  let d2 := if TronGame.ai_mode g then p2
            else fold_left steer (TronGame.input_queue g) p2 in
  exists q2,
    (if TronGame.ai_mode g && AIPlayer.isinstance d2
     then AIPlayer.make_decision d2 q1 [] W H = Some q2
     else q2 = d2)
    /\ let m1 := Player.move q1 in
       let m2 := Player.move q2 in
       let r1 := after_collision m1 m2 W H in
       let r2 := after_collision m2 m1 W H in
       TronGame.update ticks g
       = Some (if Player.alive r1 && Player.alive r2
               then TronGame.mk (TronGame.fullscreen g) (TronGame.screen g)
                                PLAYING (TronGame.game_over_timer g)
                                (TronGame.winner g) (Some r1) (Some r2)
                                (TronGame.ai_mode g) []
               else TronGame.mk (TronGame.fullscreen g) (TronGame.screen g)
                                GAME_OVER ticks
                                (Some (if negb (Player.alive r1)
                                          && negb (Player.alive r2)
                                       then "Tie"%string
                                       else if negb (Player.alive r1)
                                            then Player.name r2
                                            else Player.name r1))
                                (Some r1) (Some r2)
                                (TronGame.ai_mode g) []).
Proof.
  intros Hs H1 H2 W H q1 d2.
  assert (Hq2 : exists q2,
             if TronGame.ai_mode g && AIPlayer.isinstance d2
             then AIPlayer.make_decision d2 q1 [] W H = Some q2
             else q2 = d2).
  { destruct (TronGame.ai_mode g && AIPlayer.isinstance d2).
    - apply make_decision_total.
    - eauto. }
  destruct Hq2 as [q2 Hq2]. exists q2. split; [exact Hq2|].
  intros m1 m2 r1 r2.
  unfold TronGame.update. rewrite Hs. cbn [GameState_eqb negb].
  unfold TronGame.process_input_queue.
  rewrite (process_loop_playing _ g p1 p2 Hs H1 H2).
  fold q1 d2.
  cbn [TronGame.ai_mode TronGame.player2 TronGame.player1 TronGame.screen].
  destruct (TronGame.screen g) as [sw sh] eqn:Esc. simpl in W, H.
  assert (Hstep :
    (if TronGame.ai_mode g && AIPlayer.isinstance d2
     then
       match AIPlayer.make_decision d2 q1 [] sw sh with
       | Some p2' =>
           Some (TronGame.set_player2
                   (TronGame.mk (TronGame.fullscreen g) (sw, sh) PLAYING
                      (TronGame.game_over_timer g) (TronGame.winner g)
                      (Some q1) (Some d2) (TronGame.ai_mode g) [])
                   (Some p2'))
       | None => None
       end
     else
       Some (TronGame.mk (TronGame.fullscreen g) (sw, sh) PLAYING
               (TronGame.game_over_timer g) (TronGame.winner g)
               (Some q1) (Some d2) (TronGame.ai_mode g) []))
    = Some (TronGame.mk (TronGame.fullscreen g) (sw, sh) PLAYING
              (TronGame.game_over_timer g) (TronGame.winner g)
              (Some q1) (Some q2) (TronGame.ai_mode g) [])).
  { destruct (TronGame.ai_mode g && AIPlayer.isinstance d2).
    - subst W H. rewrite Hq2. reflexivity.
    - subst q2. reflexivity. }
  rewrite Hstep.
  cbn [TronGame.ai_mode TronGame.player2 TronGame.player1 TronGame.screen].
  fold m1 m2. fold (after_collision m1 m2 sw sh).
  change (after_collision m1 m2 sw sh) with r1.
  rewrite (check_collision_other_trail m2 r1 m1 [] sw sh)
    by apply after_collision_trail.
  fold (after_collision m2 m1 sw sh).
  change (after_collision m2 m1 sw sh) with r2.
  unfold TronGame.set_winner, TronGame.set_game_over_timer, TronGame.set_state,
    TronGame.set_player2, TronGame.set_player1.
  cbn [TronGame.fullscreen TronGame.screen TronGame.state
       TronGame.game_over_timer TronGame.winner TronGame.player1
       TronGame.player2 TronGame.ai_mode TronGame.input_queue].
  destruct (Player.alive r1), (Player.alive r2); reflexivity.
Qed.

Lemma make_decision_same (self other q : Player.t) (walls : list Cell) (W H : Z) :
  AIPlayer.make_decision self other walls W H = Some q ->
  same_but_heading q self.
Proof.
  unfold AIPlayer.make_decision.
  destruct (negb (Player.alive self)).
  - intros E. inversion E. apply same_but_heading_refl.
  - cbv zeta.
    destruct (match AIPlayer.find_safe _ _ _ _ _ _ with
              | [] => _ | _ :: _ => _ end) as [d|]; [|discriminate].
    intros E. inversion E. apply change_direction_frame.
Qed.

Lemma decided_same (g : TronGame.t) (p2 d2 q1 q2 : Player.t) (W H : Z) :
  same_but_heading d2 p2 ->
  (if TronGame.ai_mode g && AIPlayer.isinstance d2
   then AIPlayer.make_decision d2 q1 [] W H = Some q2
   else q2 = d2) ->
  same_but_heading q2 p2.
Proof.
  intros Hd2 Hq2. destruct (TronGame.ai_mode g && AIPlayer.isinstance d2).
  - eapply same_but_heading_trans; [|exact Hd2].
    eapply make_decision_same; eauto.
  - now subst q2.
Qed.

Lemma drained_same (g : TronGame.t) (p2 : Player.t) :
  same_but_heading
    (if TronGame.ai_mode g then p2
     else fold_left steer (TronGame.input_queue g) p2) p2.
Proof.
  destruct (TronGame.ai_mode g).
  - apply same_but_heading_refl.
  - apply steer_all_same.
Qed.

(** C2.  A tick in play first applies the queued keys and lets the AI
    decide, then moves both players before either collision test; a
    player whose test answers [True] is crashed; when a player is then
    dead the state becomes [GAME_OVER] and the timer takes the clock
    value, the winner being "Tie" when both are dead and the name of the
    survivor otherwise; when both are alive the state stays [PLAYING].
    The players that move are named exactly: player one as the queue
    leaves it, player two as the queue (two players) or its own
    decision (AI) leaves it. *)
Theorem update_playing_outcome
        (ticks : Z) (g : TronGame.t) (p1 p2 : Player.t) :
  TronGame.state g = PLAYING ->
  TronGame.player1 g = Some p1 -> TronGame.player2 g = Some p2 ->
  let W := fst (TronGame.screen g) in
  let H := snd (TronGame.screen g) in
  let q1 := fold_left steer (TronGame.input_queue g) p1 in
  let d2 := if TronGame.ai_mode g then p2
            else fold_left steer (TronGame.input_queue g) p2 in
  exists q2 g',
    (if TronGame.ai_mode g && AIPlayer.isinstance d2
     then AIPlayer.make_decision d2 q1 [] W H = Some q2
     else q2 = d2)
    /\ same_but_heading q1 p1 /\ same_but_heading q2 p2
    /\ TronGame.update ticks g = Some g'
    /\ let m1 := Player.move q1 in
       let m2 := Player.move q2 in
       let r1 := if Player.check_collision m1 m2 [] W H
                 then Player.crash m1 else m1 in
       let r2 := if Player.check_collision m2 m1 [] W H
                 then Player.crash m2 else m2 in
       TronGame.player1 g' = Some r1
       /\ TronGame.player2 g' = Some r2
       /\ TronGame.input_queue g' = []
       /\ TronGame.screen g' = TronGame.screen g
       /\ TronGame.fullscreen g' = TronGame.fullscreen g
       /\ TronGame.ai_mode g' = TronGame.ai_mode g
       /\ (Player.alive r1 = true -> Player.alive r2 = true ->
           TronGame.state g' = PLAYING
           /\ TronGame.winner g' = TronGame.winner g
           /\ TronGame.game_over_timer g' = TronGame.game_over_timer g)
       /\ (Player.alive r1 = false \/ Player.alive r2 = false ->
           TronGame.state g' = GAME_OVER
           /\ TronGame.game_over_timer g' = ticks)
       /\ (Player.alive r1 = false -> Player.alive r2 = false ->
           TronGame.winner g' = Some "Tie"%string)
       /\ (Player.alive r1 = false -> Player.alive r2 = true ->
           TronGame.winner g' = Some (Player.name p2))
       /\ (Player.alive r1 = true -> Player.alive r2 = false ->
           TronGame.winner g' = Some (Player.name p1))
       /\ (Player.name p1 <> "Tie"%string ->
           Player.name p2 <> "Tie"%string ->
           TronGame.winner g <> Some "Tie"%string ->
           (TronGame.winner g' = Some "Tie"%string
            <-> Player.alive r1 = false /\ Player.alive r2 = false)).
Proof.
  intros Hs H1 H2 W H q1 d2.
  destruct (update_playing_explicit ticks g p1 p2 Hs H1 H2) as (q2 & Hq2 & Hup).
  cbv zeta in Hq2, Hup. fold W H q1 d2 in Hq2, Hup.
  assert (Hsame1 : same_but_heading q1 p1) by apply steer_all_same.
  assert (Hsame2 : same_but_heading q2 p2).
  { apply (decided_same g p2 d2 q1 q2 W H (drained_same g p2) Hq2). }
  assert (Hn1 : Player.name (after_collision (Player.move q1) (Player.move q2) W H)
                = Player.name p1).
  { rewrite after_collision_name, move_name. apply Hsame1. }
  assert (Hn2 : Player.name (after_collision (Player.move q2) (Player.move q1) W H)
                = Player.name p2).
  { rewrite after_collision_name, move_name. apply Hsame2. }
  rewrite Hn1, Hn2 in Hup.
  exists q2.
  destruct (Player.alive (after_collision (Player.move q1) (Player.move q2) W H))
    eqn:E1;
  destruct (Player.alive (after_collision (Player.move q2) (Player.move q1) W H))
    eqn:E2;
  cbn [andb negb] in Hup;
  (eexists; split; [exact Hq2|]; split; [exact Hsame1|];
   split; [exact Hsame2|]; split; [exact Hup|]);
  intros m1 m2 r1 r2;
  pose proof (E1 : Player.alive r1 = _) as A1;
  pose proof (E2 : Player.alive r2 = _) as A2;
  rewrite A1, A2;
  cbn [TronGame.player1 TronGame.player2 TronGame.state TronGame.winner
       TronGame.game_over_timer TronGame.input_queue TronGame.screen
       TronGame.fullscreen TronGame.ai_mode];
  intuition (try reflexivity; try discriminate; try congruence).
Qed.

Lemma update_playing_outcome_witness :
  exists g',
    TronGame.update 777 head_on_game = Some g'
    /\ TronGame.state g' = GAME_OVER
    /\ TronGame.game_over_timer g' = 777
    /\ TronGame.winner g' = Some "Tie"%string
    /\ option_map Player.alive (TronGame.player1 g') = Some false
    /\ option_map Player.alive (TronGame.player2 g') = Some false
    /\ option_map Player.trail (TronGame.player1 g')
       = Some [(100, 200); (130, 200)]
    /\ option_map Player.trail (TronGame.player2 g')
       = Some [(160, 200); (130, 200)].
Proof.
  destruct (update_playing_outcome 777 head_on_game _ _ eq_refl eq_refl eq_refl)
    as (q2 & g' & _ & _ & _ & Hup & _).
  exists g'. split; [exact Hup|].
  vm_compute in Hup. injection Hup as <-.
  repeat split.
Defined.

(** ** Key events and the queue *)

(** C8.  In play, a movement key is put at the end of the queue by
    [handle_key_event] and changes nothing else; [process_input_queue]
    applies the queued keys to the players they are bound to, oldest
    first, and empties the queue; [update] does so before it moves the
    players; and the loop stops, keeping the rest of the queue, when the
    state is not [PLAYING]. *)
Theorem input_queue_fifo
        (display_size : Z * Z) (ticks : Z) (g : TronGame.t)
        (p1 p2 : Player.t) :
  TronGame.state g = PLAYING ->
  TronGame.player1 g = Some p1 -> TronGame.player2 g = Some p2 ->
  let W := fst (TronGame.screen g) in
  let H := snd (TronGame.screen g) in
  let q1 := fold_left steer (TronGame.input_queue g) p1 in
  let d2 := if TronGame.ai_mode g then p2
            else fold_left steer (TronGame.input_queue g) p2 in
  (forall key, is_movement_key key ->
     TronGame.handle_key_event display_size key g
     = TronGame.Running
         (TronGame.set_input_queue g (TronGame.input_queue g ++ [key])))
  /\ TronGame.process_input_queue g
     = Some (TronGame.set_input_queue
               (TronGame.set_player2 (TronGame.set_player1 g (Some q1))
                                     (Some d2))
               [])
  /\ (exists q2 g',
        same_but_heading q2 d2
        /\ (TronGame.ai_mode g = false -> q2 = d2)
        /\ TronGame.update ticks g = Some g'
        /\ TronGame.input_queue g' = []
        /\ TronGame.player1 g'
           = Some (after_collision (Player.move q1) (Player.move q2) W H)
        /\ TronGame.player2 g'
           = Some (after_collision (Player.move q2) (Player.move q1) W H))
  /\ (forall (g0 : TronGame.t) (rest : list Key),
        TronGame.state g0 <> PLAYING ->
        TronGame.process_loop rest g0
        = Some (TronGame.set_input_queue g0 rest)).
Proof.
  intros Hs H1 H2 W H q1 d2. split; [|split; [|split]].
  - intros key Hkey. unfold TronGame.handle_key_event.
    unfold is_movement_key in Hkey. simpl in Hkey.
    destruct Hkey as [<- | [<- | [<- | [<- | [<- | [<- | [<- | [<- | []]]]]]]]];
      cbn; rewrite Hs; reflexivity.
  - unfold TronGame.process_input_queue.
    rewrite (process_loop_playing _ g p1 p2 Hs H1 H2).
    unfold TronGame.set_input_queue, TronGame.set_player2, TronGame.set_player1.
    cbn [TronGame.fullscreen TronGame.screen TronGame.state
         TronGame.game_over_timer TronGame.winner TronGame.ai_mode].
    rewrite Hs. reflexivity.
  - destruct (update_playing_explicit ticks g p1 p2 Hs H1 H2) as (q2 & Hq2 & Hup).
    cbv zeta in Hq2, Hup. fold W H q1 d2 in Hq2, Hup.
    exists q2.
    assert (Hsame : same_but_heading q2 d2).
    { destruct (TronGame.ai_mode g && AIPlayer.isinstance d2).
      - eapply make_decision_same; eauto.
      - subst q2. apply same_but_heading_refl. }
    assert (Hhuman : TronGame.ai_mode g = false -> q2 = d2).
    { intros Hm. rewrite Hm in Hq2. exact Hq2. }
    destruct (Player.alive _ && Player.alive _) in Hup;
      (eexists; split; [exact Hsame|]; split; [exact Hhuman|];
       split; [exact Hup|]; repeat split).
  - intros g0 rest Hs0. destruct rest as [|key rest]; [reflexivity|].
    cbn [TronGame.process_loop].
    destruct (TronGame.state g0); try reflexivity. congruence.
Qed.

Lemma input_queue_fifo_witness :
  TronGame.handle_key_event (1920, 1080) K_s queued_game
  = TronGame.Running
      (TronGame.set_input_queue queued_game [K_UP; K_LEFT; K_s])
  /\ TronGame.process_input_queue queued_game
     = Some (TronGame.mk false (1400, 900) PLAYING 0 None
               (Some (Player.set_direction (player_at 340 440) (-1, 0)))
               (Some (player_two_at 1040 440))
               false []).
Proof.
  destruct (input_queue_fifo (1920, 1080) 16 queued_game _ _
                             eq_refl eq_refl eq_refl)
    as (Hkey & Hdrain & _ & _).
  split.
  - apply (Hkey K_s). unfold is_movement_key. simpl. tauto.
  - rewrite Hdrain. reflexivity.
Defined.

(** ** The lattice of trail cells *)

Lemma in_slice_last {A : Type} (k : nat) (l : list A) (a : A) :
  In a (slice_last k l) -> In a l.
Proof.
  unfold slice_last. intros Hin.
  rewrite <- (firstn_skipn (length l - k) l). apply in_or_app. now right.
Qed.

Lemma in_removelast {A : Type} (l : list A) (a : A) :
  In a (removelast l) -> In a l.
Proof.
  induction l as [|b l IH]; simpl; auto.
  destruct l as [|b' l']; simpl in *; [tauto|].
  intros [-> | Hin]; auto.
Qed.

Lemma move_on_lattice (p : Player.t) : on_lattice p -> on_lattice (Player.move p).
Proof.
  intros Hp. destruct (Player.alive p) eqn:Ha.
  - rewrite (move_alive p Ha). unfold on_lattice. simpl.
    intros c Hin. apply in_slice_last, in_app_or in Hin.
    destruct Hin as [Hin | [<- | []]].
    + destruct (Hp c Hin) as [[i Hi] [j Hj]]. split.
      * exists (i + fst (Player.direction p)). lia.
      * exists (j + snd (Player.direction p)). lia.
    + simpl. split; exists 0; lia.
  - unfold Player.move. now rewrite Ha.
Qed.

Lemma change_direction_on_lattice (p : Player.t) (d : Heading) :
  on_lattice p -> on_lattice (Player.change_direction p d).
Proof.
  intros Hp.
  destruct (change_direction_frame p d) as (Ex & Ey & Et & _).
  unfold on_lattice. rewrite Ex, Ey, Et. exact Hp.
Qed.

Lemma reachable_on_lattice (p : Player.t) : reachable p -> on_lattice p.
Proof.
  induction 1 as [x0 y0 col ctl nm | x0 y0 col nm | p _ IH | p d _ IH].
  - intros c [<- | []]. simpl. split; exists 0; lia.
  - intros c [<- | []]. simpl. split; exists 0; lia.
  - now apply move_on_lattice.
  - now apply change_direction_on_lattice.
Qed.

(** A multiple of the step that is smaller than a grid cell is zero. *)
Lemma small_multiple_zero (a : Z) :
  (move_distance | a) -> Z.abs a < GRID_SIZE -> a = 0.
Proof.
  intros [k Hk]. unfold move_distance, GRID_SIZE in *.
  change (20 * 3 / 2) with 30 in Hk. lia.
Qed.

Lemma lattice_hit_exact (px py : Z) (cells : list Cell) :
  (forall c, In c cells ->
             (move_distance | px - fst c) /\ (move_distance | py - snd c)) ->
  (hits px py cells = true <-> In (px, py) cells).
Proof.
  intros Hl. rewrite hits_true. split.
  - intros (c & Hin & Hx & Hy).
    destruct (Hl c Hin) as [Dx Dy].
    apply small_multiple_zero in Dx; auto.
    apply small_multiple_zero in Dy; auto.
    destruct c as [cx cy]. simpl in *.
    replace px with cx by lia. replace py with cy by lia. exact Hin.
  - intros Hin. exists (px, py). split; auto.
    unfold within_grid, GRID_SIZE. simpl. rewrite !Z.sub_diag. simpl. lia.
Qed.

Lemma reachable_exactly_reachable (p : Player.t) :
  reachable_exactly p -> reachable p.
Proof.
  induction 1 as [x0 y0 col ctl nm | x0 y0 col nm
                 | p p' _ IH Hr Hm | p d _ IH].
  - apply reachable_player.
  - apply reachable_ai.
  - rewrite (move_float_exact p Hr) in Hm. injection Hm as <-.
    now apply reachable_move.
  - now apply reachable_change_direction.
Qed.

Lemma reachable_exactly_step (p : Player.t) :
  reachable_exactly p -> in_exact_range p ->
  reachable_exactly (Player.move p).
Proof.
  intros Hp Hr. apply (reachable_exactly_move p); auto.
  apply move_float_exact. auto.
Qed.

(** C9 (as amended).  In a player state reached by [move] and
    [change_direction] from a new player, every move having been made
    within 2^53, where the floating-point step is exact, any two trail
    cells differ on each axis by a whole multiple of 1.5 [GRID_SIZE];
    hence the scan of the own trail in [check_collision] finds a cell
    exactly when the head is on an earlier trail cell, and the scan in
    [make_decision], for a tested cell that is itself computed within
    2^53, finds one exactly when the tested cell is an earlier trail
    cell. *)
Theorem trail_lattice_exact (p : Player.t) :
  reachable_exactly p ->
  2 * move_distance = 3 * GRID_SIZE
  /\ (forall c1 c2,
        In c1 (Player.trail p) -> In c2 (Player.trail p) ->
        exists i j,
          fst c1 - fst c2 = i * move_distance
          /\ snd c1 - snd c2 = j * move_distance)
  /\ (hits (Player.x p) (Player.y p) (removelast (Player.trail p)) = true
      <-> In (Player.x p, Player.y p) (removelast (Player.trail p)))
  /\ (forall d : Heading,
        step_in_exact_range (Player.x p) (fst d) ->
        step_in_exact_range (Player.y p) (snd d) ->
        let test_x := Player.x p + fst d * move_distance in
        let test_y := Player.y p + snd d * move_distance in
        float_step (Player.x p) (fst d) = Some (Finite test_x)
        /\ float_step (Player.y p) (snd d) = Some (Finite test_y)
        /\ (hits test_x test_y (removelast (Player.trail p)) = true
            <-> In (test_x, test_y) (removelast (Player.trail p)))).
Proof.
  intros Hr. apply reachable_exactly_reachable, reachable_on_lattice in Hr.
  split; [reflexivity|]. split; [|split].
  - intros c1 c2 H1 H2.
    destruct (Hr c1 H1) as [[i1 Hi1] [j1 Hj1]].
    destruct (Hr c2 H2) as [[i2 Hi2] [j2 Hj2]].
    exists (i2 - i1), (j2 - j1). lia.
  - apply lattice_hit_exact. intros c Hin.
    apply Hr. now apply in_removelast.
  - intros d (Fx & Fdx & Fpx & Fsx) (Fy & Fdy & Fpy & Fsy) test_x test_y.
    split; [now apply float_step_exact|].
    split; [now apply float_step_exact|].
    apply lattice_hit_exact. intros c Hin.
    apply in_removelast in Hin. destruct (Hr c Hin) as [[i Hi] [j Hj]].
    unfold test_x, test_y. split.
    + exists (i + fst d). lia.
    + exists (j + snd d). lia.
Qed.

Lemma trail_lattice_exact_witness :
  Player.trail round_trip
  = [(100, 200); (130, 200); (130, 230); (100, 230); (100, 200)]
  /\ In (Player.x round_trip, Player.y round_trip)
        (removelast (Player.trail round_trip))
  /\ (forall c1 c2,
        In c1 (Player.trail round_trip) -> In c2 (Player.trail round_trip) ->
        exists i j,
          fst c1 - fst c2 = i * move_distance
          /\ snd c1 - snd c2 = j * move_distance).
Proof.
  assert (Hr : reachable_exactly round_trip).
  { unfold round_trip, player_at.
    repeat first
           [ apply reachable_exactly_step;
             [|repeat split; vm_compute; discriminate]
           | apply reachable_exactly_change_direction ].
    apply reachable_exactly_player. }
  destruct (trail_lattice_exact round_trip Hr) as (_ & Hcells & Hown & _).
  split; [reflexivity | split; [| exact Hcells]].
  apply Hown. reflexivity.
Defined.

(** C9, as first stated, fails: one move of a new player at
    x = 2^53 + 1 leaves two trail cells that are 29 apart. *)
Lemma trail_lattice_counterexample :
  exists p',
    Player.move_float far_player = Player.Moved p'
    /\ Player.trail p' = [(2 ^ 53 + 1, 0); (2 ^ 53 + 30, 0)]
    /\ ~ (exists i, (2 ^ 53 + 30) - (2 ^ 53 + 1) = i * move_distance).
Proof.
  eexists. split; [vm_compute; reflexivity|].
  split; [reflexivity|].
  intros [i Hi]. unfold move_distance, GRID_SIZE in Hi.
  change (20 * 3 / 2) with 30 in Hi. lia.
Qed.

(** ** Games that a run of the program reaches *)

Lemma reset_game_in_play (g : TronGame.t) : in_play (TronGame.reset_game g).
Proof.
  intros _. destruct g as [fs [W H] st tm wn q1 q2 am iq].
  unfold TronGame.reset_game. simpl.
  destruct am; simpl; do 2 eexists; repeat split; simpl; auto.
Qed.

Lemma apply_pressed_same (keys : Key -> bool) (items : Controls) (p : Player.t) :
  same_but_heading (TronGame.apply_pressed keys items p) p.
Proof.
  revert p. induction items as [|[key d] rest IH]; intros p; simpl.
  - apply same_but_heading_refl.
  - eapply same_but_heading_trans; [apply IH|].
    destruct (keys key).
    + apply change_direction_frame.
    + apply same_but_heading_refl.
Qed.

Lemma handle_key_event_in_play
      (display_size : Z * Z) (key : Key) (g g' : TronGame.t) :
  in_play g ->
  TronGame.handle_key_event display_size key g = TronGame.Running g' ->
  in_play g'.
Proof.
  intros Hg. unfold TronGame.handle_key_event.
  assert (Htog : in_play (TronGame.toggle_fullscreen display_size g)).
  { unfold TronGame.toggle_fullscreen, in_play.
    destruct (negb (TronGame.fullscreen g)); exact Hg. }
  assert (Hstep : forall g0, in_play g0 ->
            match TronGame.state g0 with
            | MENU =>
                if Key_eqb key K_1
                then TronGame.Running
                       (TronGame.reset_game (TronGame.set_ai_mode g0 false))
                else if Key_eqb key K_2
                then TronGame.Running
                       (TronGame.reset_game (TronGame.set_ai_mode g0 true))
                else TronGame.Running g0
            | PLAYING =>
                if TronGame.key_in key TronGame.movement_keys_1
                   || TronGame.key_in key TronGame.movement_keys_2
                then TronGame.Running
                       (TronGame.set_input_queue
                          g0 (TronGame.input_queue g0 ++ [key]))
                else TronGame.Running g0
            | GAME_OVER =>
                if Key_eqb key K_r
                then TronGame.Running (TronGame.reset_game g0)
                else if Key_eqb key K_m
                then TronGame.Running (TronGame.set_state g0 MENU)
                else TronGame.Running g0
            end = TronGame.Running g' -> in_play g').
  { intros g0 H0. destruct (TronGame.state g0) eqn:Hs.
    - destruct (Key_eqb key K_1); [|destruct (Key_eqb key K_2)];
        intros E; inversion E; subst; auto using reset_game_in_play.
    - destruct (_ || _); intros E; inversion E; subst; auto.
    - destruct (Key_eqb key K_r); [|destruct (Key_eqb key K_m)];
        intros E; inversion E; subst; auto using reset_game_in_play.
      intros Hc. discriminate Hc. }
  destruct (Key_eqb key K_f); [now apply Hstep|].
  destruct (Key_eqb key K_ESCAPE); [discriminate | now apply Hstep].
Qed.

Lemma handle_input_in_play (keys : Key -> bool) (g g' : TronGame.t) :
  in_play g -> TronGame.handle_input keys g = Some g' -> in_play g'.
Proof.
  intros Hg. unfold TronGame.handle_input.
  destruct (TronGame.state g) eqn:Hs; simpl;
    try (intros E; inversion E; subst; exact Hg).
  destruct (Hg Hs) as (p1 & p2 & H1 & H2 & A1 & A2 & N1 & N2 & Hw).
  rewrite H1. cbn [TronGame.ai_mode TronGame.set_player1 TronGame.player2].
  pose proof (apply_pressed_same keys (Player.controls p1) p1)
    as (_ & _ & _ & Sa1 & Sn1 & _).
  pose proof (apply_pressed_same keys (Player.controls p2) p2)
    as (_ & _ & _ & Sa2 & Sn2 & _).
  destruct (TronGame.ai_mode g); simpl.
  - intros E; inversion E; subst. intros _. simpl.
    do 2 eexists. repeat split; eauto; congruence.
  - rewrite H2. intros E; inversion E; subst. intros _. simpl.
    do 2 eexists. repeat split; eauto; congruence.
Qed.

(** The players at the end of a tick in play keep their names. *)
Lemma update_playing_names
      (ticks : Z) (g : TronGame.t) (p1 p2 : Player.t) :
  TronGame.state g = PLAYING ->
  TronGame.player1 g = Some p1 -> TronGame.player2 g = Some p2 ->
  exists r1 r2 g',
    TronGame.update ticks g = Some g'
    /\ TronGame.player1 g' = Some r1 /\ TronGame.player2 g' = Some r2
    /\ Player.name r1 = Player.name p1 /\ Player.name r2 = Player.name p2
    /\ TronGame.state g'
       = (if Player.alive r1 && Player.alive r2 then PLAYING else GAME_OVER)
    /\ TronGame.winner g'
       = (if Player.alive r1 && Player.alive r2 then TronGame.winner g
          else Some (if negb (Player.alive r1) && negb (Player.alive r2)
                     then "Tie"%string
                     else if negb (Player.alive r1)
                          then Player.name r2 else Player.name r1)).
Proof.
  intros Hs H1 H2.
  destruct (update_playing_explicit ticks g p1 p2 Hs H1 H2) as (q2 & Hq2 & Hup).
  cbv zeta in Hq2, Hup.
  apply (decided_same g p2 _ _ _ _ _ (drained_same g p2)) in Hq2.
  pose proof (steer_all_same (TronGame.input_queue g) p1) as Hq1.
  do 2 eexists. eexists. split; [exact Hup|].
  destruct (Player.alive _ && Player.alive _) eqn:E;
    cbn [TronGame.player1 TronGame.player2 TronGame.state TronGame.winner];
    (split; [reflexivity|]); (split; [reflexivity|]);
    rewrite !after_collision_name, !move_name, ?E;
    (split; [apply Hq1|]); (split; [apply Hq2|]); split; reflexivity.
Qed.

Lemma update_in_play (ticks : Z) (g g' : TronGame.t) :
  in_play g -> TronGame.update ticks g = Some g' -> in_play g'.
Proof.
  intros Hg Hup.
  destruct (TronGame.state g) eqn:Hs;
    try (rewrite update_outside_play in Hup by (rewrite Hs; discriminate);
         inversion Hup; subst; exact Hg).
  destruct (Hg Hs) as (p1 & p2 & H1 & H2 & A1 & A2 & N1 & N2 & Hw).
  destruct (update_playing_names ticks g p1 p2 Hs H1 H2)
    as (r1 & r2 & g2 & Hup2 & Hr1 & Hr2 & Hn1 & Hn2 & Hst & Hwin).
  rewrite Hup in Hup2. inversion Hup2; subst g2.
  intros Hs'. rewrite Hs' in Hst.
  destruct (Player.alive r1) eqn:E1, (Player.alive r2) eqn:E2;
    try discriminate Hst.
  exists r1, r2. simpl in Hwin. repeat split; congruence.
Qed.

Lemma game_reachable_in_play (g : TronGame.t) : game_reachable g -> in_play g.
Proof.
  induction 1 as [| ds key g g' _ IH E | keys g g' _ IH E | ticks g g' _ IH E].
  - intros Hs. discriminate Hs.
  - eapply handle_key_event_in_play; eauto.
  - eapply handle_input_in_play; eauto.
  - eapply update_in_play; eauto.
Qed.

(** In a run of the program [update] never raises, and the winner it
    records is "Tie" exactly when both players are dead. *)
Lemma update_reachable (ticks : Z) (g : TronGame.t) :
  game_reachable g ->
  exists g',
    TronGame.update ticks g = Some g'
    /\ (TronGame.state g = PLAYING ->
        exists r1 r2,
          TronGame.player1 g' = Some r1 /\ TronGame.player2 g' = Some r2
          /\ (TronGame.winner g' = Some "Tie"%string
              <-> Player.alive r1 = false /\ Player.alive r2 = false)).
Proof.
  intros Hr. apply game_reachable_in_play in Hr.
  destruct (TronGame.state g) eqn:Hs;
    try (exists g; split;
         [apply update_outside_play; rewrite Hs; discriminate | discriminate]).
  destruct (Hr Hs) as (p1 & p2 & H1 & H2 & A1 & A2 & N1 & N2 & Hw).
  destruct (update_playing_names ticks g p1 p2 Hs H1 H2)
    as (r1 & r2 & g' & Hup & Hr1 & Hr2 & Hn1 & Hn2 & Hst & Hwin).
  exists g'. split; [exact Hup|]. intros _.
  exists r1, r2. split; [exact Hr1|]. split; [exact Hr2|].
  rewrite Hwin, Hw, Hn1, Hn2, N1.
  destruct (Player.alive r1), (Player.alive r2); simpl;
    try (destruct N2 as [-> | ->]);
    (split; [intros E; try discriminate E; auto
            | intros [E1 E2]; try discriminate; auto]).
Qed.

(** * Further properties of the players *)

(** ** Shapes of lists *)

Lemma slice_last_snoc {A : Type} (k : nat) (l : list A) (a : A) :
  (1 <= k)%nat -> exists older, slice_last k (l ++ [a]) = older ++ [a].
Proof.
  intros Hk. unfold slice_last. rewrite length_app. simpl.
  remember (length l + 1 - k)%nat as n.
  rewrite skipn_app. replace (n - length l)%nat with 0%nat by lia.
  simpl. eauto.
Qed.



(** ** Player.check_collision once more *)

(** The three tests of [check_collision] as one boolean. *)
Lemma check_collision_bool
      (self other : Player.t) (walls : list Cell) (W H : Z) :
  Player.check_collision self other walls W H
  = Player.alive self
    && ((Player.x self <? 0) || (Player.x self >=? W)
        || (Player.y self <? 0) || (Player.y self >=? H)
        || hits (Player.x self) (Player.y self) (removelast (Player.trail self))
        || hits (Player.x self) (Player.y self) (Player.trail other)).
Proof.
  unfold Player.check_collision.
  destruct (Player.alive self); simpl; [|reflexivity].
  destruct (_ || _ || _ || _); simpl; [reflexivity|].
  assert (Hg : (1 <? length (Player.trail self))%nat
               && hits (Player.x self) (Player.y self)
                       (removelast (Player.trail self))
               = hits (Player.x self) (Player.y self)
                      (removelast (Player.trail self))).
  { destruct (Player.trail self) as [|a [|b l]]; reflexivity. }
  rewrite Hg.
  destruct (hits _ _ (removelast _)); simpl; [reflexivity|].
  now destruct (hits _ _ (Player.trail other)).
Qed.


Lemma within_grid_sym (ax ay bx b_y : Z) :
  within_grid ax ay (bx, b_y) -> within_grid bx b_y (ax, ay).
Proof. unfold within_grid. simpl. lia. Qed.

Lemma overlapping_heads_collide
      (p1 p2 : Player.t) (walls : list Cell) (W H : Z) :
  Player.alive p1 = true -> Player.alive p2 = true ->
  In (Player.x p1, Player.y p1) (Player.trail p1) ->
  In (Player.x p2, Player.y p2) (Player.trail p2) ->
  within_grid (Player.x p1) (Player.y p1) (Player.x p2, Player.y p2) ->
  Player.check_collision p1 p2 walls W H = true
  /\ Player.check_collision p2 p1 walls W H = true.
Proof.
  intros A1 A2 I1 I2 Hw.
  rewrite !check_collision_bool, A1, A2. simpl.
  assert (H12 : hits (Player.x p1) (Player.y p1) (Player.trail p2) = true).
  { apply hits_true. eauto. }
  assert (H21 : hits (Player.x p2) (Player.y p2) (Player.trail p1) = true).
  { apply hits_true. exists (Player.x p1, Player.y p1).
    split; auto. now apply within_grid_sym. }
  rewrite H12, H21, !orb_true_r. auto.
Qed.



(** ** Turning *)

(** X6.  Asking twice for the same heading is the same as asking once,
    for [change_direction] and for a key applied through the controls:
    a key that is both held and queued acts once. *)
Theorem change_direction_idempotent (p : Player.t) (d : Heading) (key : Key) :
  Player.change_direction (Player.change_direction p d) d
  = Player.change_direction p d
  /\ steer (steer p key) key = steer p key.
Proof.
  assert (Hidem : forall q e,
            Player.change_direction (Player.change_direction q e) e
            = Player.change_direction q e).
  { intros q e. rewrite (change_direction_cases q e).
    destruct q as [px py col ctl nm dir tr al sp a]. simpl.
    destruct al; [|reflexivity].
    destruct (pair_eqb e (opposite dir)) eqn:E1; rewrite change_direction_cases;
      simpl; [now rewrite E1|].
    now destruct (pair_eqb e (opposite e)). }
  split; [apply Hidem|].
  unfold steer at 2 3.
  destruct (controls_get (Player.controls p) key) as [e|] eqn:E.
  - unfold steer.
    destruct (change_direction_frame p e) as (_ & _ & _ & _ & _ & -> & _).
    rewrite E. apply Hidem.
  - unfold steer. now rewrite E.
Qed.




(** ** The trail of a player *)

Lemma move_frame (p : Player.t) :
  Player.direction (Player.move p) = Player.direction p
  /\ Player.alive (Player.move p) = Player.alive p
  /\ Player.name (Player.move p) = Player.name p
  /\ Player.controls (Player.move p) = Player.controls p
  /\ Player.ai (Player.move p) = Player.ai p.
Proof.
  destruct (Player.alive p) eqn:Ha.
  - rewrite (move_alive p Ha). simpl. auto.
  - unfold Player.move. rewrite Ha. simpl. auto.
Qed.

Lemma move_trail_shape (p : Player.t) :
  (exists older, Player.trail p = older ++ [(Player.x p, Player.y p)]) ->
  (length (Player.trail p) <= 1000)%nat ->
  (exists older,
     Player.trail (Player.move p)
     = older ++ [(Player.x (Player.move p), Player.y (Player.move p))])
  /\ (length (Player.trail p) <= length (Player.trail (Player.move p)) <= 1000)%nat.
Proof.
  intros Hshape Hlen. destruct (Player.alive p) eqn:Ha.
  - rewrite (move_alive p Ha). simpl. split.
    + apply slice_last_snoc. lia.
    + rewrite slice_last_length, length_app. cbn [length]. lia.
  - unfold Player.move. rewrite Ha. simpl. split; [exact Hshape | lia].
Qed.

(** X7.  However a player has moved and turned since it was built, its
    trail holds between 1 and 1000 cells and ends on its position. *)
Theorem reachable_trail_shape (p : Player.t) :
  reachable p ->
  (exists older, Player.trail p = older ++ [(Player.x p, Player.y p)])
  /\ (1 <= length (Player.trail p) <= 1000)%nat.
Proof.
  induction 1 as [x0 y0 col ctl nm | x0 y0 col nm
                 | p _ [IHs IHl] | p d _ [IHs IHl]].
  - split; [exists []; reflexivity | simpl; lia].
  - split; [exists []; reflexivity | simpl; lia].
  - destruct (move_trail_shape p IHs) as [Hs Hl]; [lia|].
    split; [exact Hs | lia].
  - destruct (change_direction_frame p d) as (-> & -> & -> & _).
    split; [exact IHs | exact IHl].
Qed.

Lemma reachable_trail_shape_witness :
  (exists older,
     Player.trail round_trip
     = older ++ [(Player.x round_trip, Player.y round_trip)])
  /\ (1 <= length (Player.trail round_trip) <= 1000)%nat.
Proof.
  apply reachable_trail_shape.
  unfold round_trip, player_at.
  repeat first [apply reachable_move | apply reachable_change_direction].
  apply reachable_player.
Defined.

(** ** The AI's look-ahead *)



Lemma set_direction_same (p : Player.t) :
  Player.set_direction p (Player.direction p) = p.
Proof. now destruct p. Qed.

Lemma only_heading_trans (r q p : Player.t) :
  r = Player.set_direction q (Player.direction r) ->
  q = Player.set_direction p (Player.direction q) ->
  r = Player.set_direction p (Player.direction r).
Proof. intros Hr Hq. rewrite Hr, Hq. reflexivity. Qed.

Lemma change_direction_only_heading (p : Player.t) (d : Heading) :
  Player.change_direction p d
  = Player.set_direction p (Player.direction (Player.change_direction p d)).
Proof.
  rewrite change_direction_cases.
  destruct (Player.alive p); [destruct (pair_eqb d _)|];
    try (symmetry; apply set_direction_same).
  reflexivity.
Qed.







(** * Further properties of the game *)

(** ** Players of a running game *)

Lemma player_inv_init (x0 y0 : Z) (col : Color) (ctl : Controls) (nm : string) :
  player_inv (Player.init x0 y0 col ctl nm).
Proof.
  unfold player_inv. simpl. split; [left; reflexivity|].
  split; [exists []; reflexivity|]. split; [lia|].
  intros c [<- | []]. simpl. split; exists 0; lia.
Qed.

Lemma player_inv_ai_init (x0 y0 : Z) (col : Color) (nm : string) :
  player_inv (AIPlayer.init x0 y0 col nm).
Proof.
  unfold player_inv. simpl. split; [right; left; reflexivity|].
  split; [exists []; reflexivity|]. split; [lia|].
  intros c [<- | []]. simpl. split; exists 0; lia.
Qed.

Lemma player_inv_heading (q p : Player.t) :
  player_inv p -> same_but_heading q p -> is_heading (Player.direction q) ->
  player_inv q.
Proof.
  intros (_ & Hs & Hl & Hlat) (Ex & Ey & Et & _) Hh.
  unfold player_inv, on_lattice. rewrite Ex, Ey, Et. auto.
Qed.

Lemma player_inv_move (p : Player.t) : player_inv p -> player_inv (Player.move p).
Proof.
  intros (Hh & Hs & Hl & Hlat).
  destruct (move_frame p) as (Ed & _).
  destruct (move_trail_shape p Hs Hl) as [Hs' Hl'].
  unfold player_inv. rewrite Ed.
  split; [exact Hh|]. split; [exact Hs'|]. split; [lia|].
  now apply move_on_lattice.
Qed.

Lemma player_inv_after_collision (moved other : Player.t) (W H : Z) :
  player_inv moved -> player_inv (after_collision moved other W H).
Proof.
  intros Hp. unfold after_collision.
  destruct (Player.check_collision _ _ _ _ _); exact Hp.
Qed.

Lemma controls_get_in (c : Controls) (key : Key) (d : Heading) :
  controls_get c key = Some d -> exists key', In (key', d) c.
Proof.
  induction c as [|[k e] rest IH]; simpl; [discriminate|].
  destruct (Key_eqb k key).
  - intros E. inversion E; subst. eauto.
  - intros E. destruct (IH E) as [key' Hin]. eauto.
Qed.

Lemma steer_heading (p : Player.t) (key : Key) :
  unit_controls (Player.controls p) -> is_heading (Player.direction p) ->
  is_heading (Player.direction (steer p key)).
Proof.
  intros Hu Hh. unfold steer.
  destruct (controls_get (Player.controls p) key) as [d|] eqn:E; [|exact Hh].
  apply change_direction_heading; auto.
  apply controls_get_in in E. destruct E as [key' Hin].
  unfold unit_controls in Hu. rewrite Forall_forall in Hu.
  exact (Hu _ Hin).
Qed.

Lemma steer_all_heading (queue : list Key) (p : Player.t) :
  unit_controls (Player.controls p) -> is_heading (Player.direction p) ->
  is_heading (Player.direction (fold_left steer queue p)).
Proof.
  revert p. induction queue as [|key rest IH]; intros p Hu Hh; simpl; auto.
  apply IH.
  - destruct (steer_same p key) as (_ & _ & _ & _ & _ & -> & _). exact Hu.
  - now apply steer_heading.
Qed.

Lemma apply_pressed_heading (keys : Key -> bool) (items : Controls) (p : Player.t) :
  unit_controls items -> is_heading (Player.direction p) ->
  is_heading (Player.direction (TronGame.apply_pressed keys items p)).
Proof.
  revert p. induction items as [|[key d] rest IH]; intros p Hu Hh; simpl; auto.
  inversion Hu; subst. apply IH; auto.
  destruct (keys key); auto. now apply change_direction_heading.
Qed.

Lemma make_decision_heading
      (self other q : Player.t) (walls : list Cell) (W H : Z) :
  is_heading (Player.direction self) ->
  AIPlayer.make_decision self other walls W H = Some q ->
  is_heading (Player.direction q).
Proof.
  intros Hh. unfold AIPlayer.make_decision.
  destruct (negb (Player.alive self)).
  { intros E. inversion E; subst. exact Hh. }
  cbv zeta. rewrite find_safe_filter. simpl.
  destruct (filter _ (AIPlayer.candidates self)) as [|s ss] eqn:Efil.
  - destruct (AIPlayer.candidates self) as [|d rest] eqn:Ec; [discriminate|].
    simpl. intros E. inversion E; subst.
    apply change_direction_heading; auto.
    apply (candidates_heading self). rewrite Ec. now left.
  - destruct (AIPlayer.list_in _ _); intros E; inversion E; subst;
      apply change_direction_heading; auto.
    apply (candidates_heading self).
    assert (Hs : In s (filter (AIPlayer.direction_is_safe self other W H)
                              (AIPlayer.candidates self)))
      by (rewrite Efil; now left).
    now apply filter_In in Hs.
Qed.

Lemma unit_player1_controls : unit_controls TronGame.player1_controls.
Proof.
  unfold unit_controls, TronGame.player1_controls, is_heading.
  repeat apply Forall_cons; try apply Forall_nil; simpl; auto 6.
Qed.

Lemma unit_player2_controls : unit_controls TronGame.player2_controls.
Proof.
  unfold unit_controls, TronGame.player2_controls, is_heading.
  repeat apply Forall_cons; try apply Forall_nil; simpl; auto 6.
Qed.

Lemma roles_unit_controls (m : bool) (p1 p2 : Player.t) :
  roles m p1 p2 ->
  unit_controls (Player.controls p1) /\ unit_controls (Player.controls p2).
Proof.
  intros (_ & -> & _ & H2). split; [apply unit_player1_controls|].
  destruct m; destruct H2 as (_ & -> & _).
  - constructor.
  - apply unit_player2_controls.
Qed.

Lemma roles_same (m : bool) (p1 p2 q1 q2 : Player.t) :
  roles m p1 p2 ->
  Player.name q1 = Player.name p1 -> Player.controls q1 = Player.controls p1 ->
  Player.ai q1 = Player.ai p1 ->
  Player.name q2 = Player.name p2 -> Player.controls q2 = Player.controls p2 ->
  Player.ai q2 = Player.ai p2 ->
  roles m q1 q2.
Proof.
  unfold roles. intros H -> -> -> -> -> ->. exact H.
Qed.

Lemma roles_same_but_heading (m : bool) (p1 p2 q1 q2 : Player.t) :
  roles m p1 p2 -> same_but_heading q1 p1 -> same_but_heading q2 p2 ->
  roles m q1 q2.
Proof.
  intros H (_ & _ & _ & _ & N1 & C1 & A1) (_ & _ & _ & _ & N2 & C2 & A2).
  eapply roles_same; eauto.
Qed.

Lemma after_collision_frame (moved other : Player.t) (W H : Z) :
  Player.name (after_collision moved other W H) = Player.name moved
  /\ Player.controls (after_collision moved other W H) = Player.controls moved
  /\ Player.ai (after_collision moved other W H) = Player.ai moved.
Proof.
  unfold after_collision.
  destruct (Player.check_collision _ _ _ _ _); simpl; auto.
Qed.

(** ** What a key event can do *)

Lemma toggle_fullscreen_fields (display_size : Z * Z) (g : TronGame.t) :
  TronGame.toggle_fullscreen display_size g
  = TronGame.mk (negb (TronGame.fullscreen g))
                (if negb (TronGame.fullscreen g) then display_size
                 else (WINDOW_WIDTH, WINDOW_HEIGHT))
                (TronGame.state g) (TronGame.game_over_timer g)
                (TronGame.winner g) (TronGame.player1 g) (TronGame.player2 g)
                (TronGame.ai_mode g) (TronGame.input_queue g).
Proof.
  unfold TronGame.toggle_fullscreen, TronGame.set_screen.
  now destruct (negb (TronGame.fullscreen g)).
Qed.

Lemma handle_key_event_cases
      (display_size : Z * Z) (key : Key) (g g' : TronGame.t) :
  TronGame.handle_key_event display_size key g = TronGame.Running g' ->
  (key = K_f /\ g' = TronGame.toggle_fullscreen display_size g)
  \/ (TronGame.state g = MENU /\ key = K_1
      /\ g' = TronGame.reset_game (TronGame.set_ai_mode g false))
  \/ (TronGame.state g = MENU /\ key = K_2
      /\ g' = TronGame.reset_game (TronGame.set_ai_mode g true))
  \/ (TronGame.state g = GAME_OVER /\ key = K_r
      /\ g' = TronGame.reset_game g)
  \/ (TronGame.state g = GAME_OVER /\ key = K_m
      /\ g' = TronGame.set_state g MENU)
  \/ (TronGame.state g = PLAYING /\ is_movement_key key
      /\ g' = TronGame.set_input_queue g (TronGame.input_queue g ++ [key]))
  \/ (key <> K_f /\ g' = g).
Proof.
  unfold TronGame.handle_key_event, is_movement_key.
  destruct key; cbn;
    try (rewrite toggle_fullscreen_fields; cbn);
    destruct (TronGame.state g) eqn:Hs; cbn;
    intros E; inversion E; subst; clear E;
    try (left; split; reflexivity);
    try (do 1 right; left; now auto);
    try (do 2 right; left; now auto);
    try (do 3 right; left; now auto);
    try (do 4 right; left; now auto);
    try (do 5 right; left; split; [reflexivity|]; split; [|reflexivity];
         simpl; tauto);
    try (do 6 right; split; [discriminate | reflexivity]).
Qed.

(** ** The invariant of the game object *)

Lemma reset_game_fields (g : TronGame.t) :
  let W := fst (TronGame.screen g) in
  let H := snd (TronGame.screen g) in
  let x1 := W / GRID_SIZE / 4 * GRID_SIZE in
  let x2 := 3 * (W / GRID_SIZE) / 4 * GRID_SIZE in
  let y0 := H / GRID_SIZE / 2 * GRID_SIZE in
  TronGame.reset_game g
  = TronGame.mk (TronGame.fullscreen g) (TronGame.screen g) PLAYING 0 None
      (Some (Player.init x1 y0 NEON_BLUE TronGame.player1_controls "Player 1"))
      (Some (if TronGame.ai_mode g
             then AIPlayer.init x2 y0 NEON_ORANGE "AI"
             else Player.init x2 y0 NEON_ORANGE TronGame.player2_controls
                              "Player 2"))
      (TronGame.ai_mode g) [].
Proof.
  destruct g as [fs [W H] st tm wn q1 q2 am iq].
  unfold TronGame.reset_game. simpl. now destruct am.
Qed.

Lemma game_inv_init : game_inv TronGame.init.
Proof.
  unfold game_inv. simpl. split; [reflexivity|]. split; [constructor|].
  split; [reflexivity|]. left. auto.
Qed.

Lemma game_inv_reset (g : TronGame.t) :
  (TronGame.fullscreen g = false ->
   TronGame.screen g = (WINDOW_WIDTH, WINDOW_HEIGHT)) ->
  game_inv (TronGame.reset_game g).
Proof.
  intros Hscr. rewrite reset_game_fields. cbv zeta.
  unfold game_inv. cbn [TronGame.fullscreen TronGame.screen TronGame.state
                        TronGame.input_queue TronGame.player1 TronGame.player2
                        TronGame.ai_mode].
  split; [exact Hscr|]. split; [constructor|]. split; [reflexivity|].
  right. do 2 eexists. split; [reflexivity|]. split; [reflexivity|].
  split; [apply player_inv_init|].
  destruct (TronGame.ai_mode g).
  - split; [apply player_inv_ai_init|].
    split; [unfold roles; simpl; auto 10|].
    unfold phase_inv. simpl. auto.
  - split; [apply player_inv_init|].
    split; [unfold roles; simpl; auto 10|].
    unfold phase_inv. simpl. auto.
Qed.

Lemma game_inv_toggle (display_size : Z * Z) (g : TronGame.t) :
  game_inv g -> game_inv (TronGame.toggle_fullscreen display_size g).
Proof.
  intros (_ & Hq & He & Hp). rewrite toggle_fullscreen_fields.
  unfold game_inv. cbn [TronGame.fullscreen TronGame.screen TronGame.state
                        TronGame.input_queue TronGame.player1 TronGame.player2
                        TronGame.ai_mode].
  split.
  { intros E. now rewrite E. }
  split; [exact Hq|]. split; [exact He|].
  destruct Hp as [Hp | (p1 & p2 & H1 & H2 & I1 & I2 & Hr & Hph)];
    [left; exact Hp | right].
  exists p1, p2. repeat (split; [assumption|]). exact Hph.
Qed.

Lemma game_inv_key_event
      (display_size : Z * Z) (key : Key) (g g' : TronGame.t) :
  game_inv g ->
  TronGame.handle_key_event display_size key g = TronGame.Running g' ->
  game_inv g'.
Proof.
  intros Hg E. apply handle_key_event_cases in E.
  destruct E as [[_ ->] | [(Hs & _ & ->) | [(Hs & _ & ->) | [(Hs & _ & ->)
               | [(Hs & _ & ->) | [(Hs & Hk & ->) | [_ ->]]]]]]].
  - now apply game_inv_toggle.
  - apply game_inv_reset. apply Hg.
  - apply game_inv_reset. apply Hg.
  - apply game_inv_reset. apply Hg.
  - destruct Hg as (Hscr & Hq & He & Hp).
    unfold game_inv. simpl.
    split; [exact Hscr|]. split; [exact Hq|].
    split; [intros _; apply He; rewrite Hs; discriminate|].
    destruct Hp as [(_ & _ & Hm) | (p1 & p2 & H1 & H2 & I1 & I2 & Hr & Hph)];
      [rewrite Hs in Hm; discriminate | right].
    exists p1, p2. repeat (split; [assumption|]).
    unfold phase_inv. simpl. exact I.
  - destruct Hg as (Hscr & Hq & He & Hp).
    unfold game_inv. simpl.
    split; [exact Hscr|].
    split; [apply Forall_app; split;
            [exact Hq | apply Forall_cons; [exact Hk | apply Forall_nil]]|].
    split; [intros Hn; congruence|].
    destruct Hp as [(_ & _ & Hm) | (p1 & p2 & H1 & H2 & I1 & I2 & Hr & Hph)];
      [rewrite Hs in Hm; discriminate | right].
    exists p1, p2. repeat (split; [assumption|]). exact Hph.
  - exact Hg.
Qed.

Lemma verdict_same (p1 p2 q1 q2 : Player.t) :
  same_but_heading q1 p1 -> same_but_heading q2 p2 ->
  verdict q1 q2 = verdict p1 p2.
Proof.
  intros (_ & _ & _ & A1 & N1 & _) (_ & _ & _ & A2 & N2 & _).
  unfold verdict. now rewrite A1, A2, N1, N2.
Qed.

(** Turning the players keeps the invariant. *)
Lemma game_inv_steered (g : TronGame.t) (p1 p2 q1 q2 : Player.t) :
  game_inv g ->
  TronGame.player1 g = Some p1 -> TronGame.player2 g = Some p2 ->
  same_but_heading q1 p1 -> same_but_heading q2 p2 ->
  is_heading (Player.direction q1) -> is_heading (Player.direction q2) ->
  game_inv (TronGame.mk (TronGame.fullscreen g) (TronGame.screen g)
                        (TronGame.state g) (TronGame.game_over_timer g)
                        (TronGame.winner g) (Some q1) (Some q2)
                        (TronGame.ai_mode g) (TronGame.input_queue g)).
Proof.
  intros (Hscr & Hq & He & Hp) H1 H2 S1 S2 D1 D2.
  unfold game_inv. simpl.
  split; [exact Hscr|]. split; [exact Hq|]. split; [exact He|]. right.
  destruct Hp as [(Hn & _) | (p1' & p2' & H1' & H2' & I1 & I2 & Hr & Hph)];
    [congruence|].
  assert (p1' = p1) by congruence. assert (p2' = p2) by congruence. subst.
  exists q1, q2. split; [reflexivity|]. split; [reflexivity|].
  split; [apply (player_inv_heading q1 p1); assumption|].
  split; [apply (player_inv_heading q2 p2); assumption|].
  split; [apply (roles_same_but_heading _ p1 p2); assumption|].
  unfold phase_inv in *. simpl.
  pose proof S1 as (_ & _ & _ & A1 & _).
  pose proof S2 as (_ & _ & _ & A2 & _).
  destruct (TronGame.state g); auto.
  - now rewrite A1, A2.
  - now rewrite A1, A2, (verdict_same p1 p2 q1 q2 S1 S2).
Qed.

Lemma handle_input_playing
      (keys : Key -> bool) (g : TronGame.t) (p1 p2 : Player.t) :
  TronGame.state g = PLAYING ->
  TronGame.player1 g = Some p1 -> TronGame.player2 g = Some p2 ->
  TronGame.handle_input keys g
  = Some (TronGame.mk (TronGame.fullscreen g) (TronGame.screen g)
            (TronGame.state g) (TronGame.game_over_timer g)
            (TronGame.winner g)
            (Some (TronGame.apply_pressed keys (Player.controls p1) p1))
            (Some (if TronGame.ai_mode g then p2
                   else TronGame.apply_pressed keys (Player.controls p2) p2))
            (TronGame.ai_mode g) (TronGame.input_queue g)).
Proof.
  destruct g as [fs sc st tm wn q1 q2 am iq]. simpl. intros -> -> ->.
  unfold TronGame.handle_input. simpl. now destruct am.
Qed.

Lemma handle_input_outside (keys : Key -> bool) (g : TronGame.t) :
  TronGame.state g <> PLAYING -> TronGame.handle_input keys g = Some g.
Proof.
  intros Hs. unfold TronGame.handle_input.
  destruct (TronGame.state g); try reflexivity. congruence.
Qed.

Lemma game_inv_playing (g : TronGame.t) :
  game_inv g -> TronGame.state g = PLAYING ->
  exists p1 p2,
    TronGame.player1 g = Some p1 /\ TronGame.player2 g = Some p2
    /\ player_inv p1 /\ player_inv p2
    /\ roles (TronGame.ai_mode g) p1 p2
    /\ Player.alive p1 = true /\ Player.alive p2 = true
    /\ TronGame.winner g = None.
Proof.
  intros (_ & _ & _ & Hp) Hs.
  destruct Hp as [(_ & _ & Hm) | (p1 & p2 & H1 & H2 & I1 & I2 & Hr & Hph)];
    [congruence|].
  unfold phase_inv in Hph. rewrite Hs in Hph.
  exists p1, p2. tauto.
Qed.

Lemma game_inv_handle_input (keys : Key -> bool) (g g' : TronGame.t) :
  game_inv g -> TronGame.handle_input keys g = Some g' -> game_inv g'.
Proof.
  intros Hg E.
  destruct (TronGame.state g) eqn:Hs;
    try (rewrite handle_input_outside in E by (rewrite Hs; discriminate);
         inversion E; subst; exact Hg).
  destruct (game_inv_playing g Hg Hs)
    as (p1 & p2 & H1 & H2 & I1 & I2 & Hr & _).
  rewrite (handle_input_playing keys g p1 p2 Hs H1 H2) in E.
  inversion E; subst; clear E.
  destruct (roles_unit_controls _ _ _ Hr) as [U1 U2].
  apply (game_inv_steered g p1 p2); auto.
  - apply apply_pressed_same.
  - destruct (TronGame.ai_mode g);
      [apply same_but_heading_refl | apply apply_pressed_same].
  - apply apply_pressed_heading; [exact U1 | apply I1].
  - destruct (TronGame.ai_mode g);
      [apply I2 | apply apply_pressed_heading; [exact U2 | apply I2]].
Qed.

Lemma game_inv_update (ticks : Z) (g g' : TronGame.t) :
  game_inv g -> TronGame.update ticks g = Some g' -> game_inv g'.
Proof.
  intros Hg E.
  destruct (TronGame.state g) eqn:Hs;
    try (rewrite update_outside_play in E by (rewrite Hs; discriminate);
         inversion E; subst; exact Hg).
  destruct (game_inv_playing g Hg Hs)
    as (p1 & p2 & H1 & H2 & I1 & I2 & Hr & A1 & A2 & Hw).
  destruct (update_playing_explicit ticks g p1 p2 Hs H1 H2) as (q2 & Hq2 & Hup).
  cbv zeta in Hq2, Hup.
  set (W := fst (TronGame.screen g)) in *.
  set (H := snd (TronGame.screen g)) in *.
  set (q1 := fold_left steer (TronGame.input_queue g) p1) in *.
  set (d2 := if TronGame.ai_mode g then p2
             else fold_left steer (TronGame.input_queue g) p2) in *.
  destruct (roles_unit_controls _ _ _ Hr) as [U1 U2].
  assert (S1 : same_but_heading q1 p1) by apply steer_all_same.
  assert (D1 : is_heading (Player.direction q1)).
  { apply steer_all_heading; [exact U1 | apply I1]. }
  assert (Sd : same_but_heading d2 p2) by apply drained_same.
  assert (Dd : is_heading (Player.direction d2)).
  { unfold d2. destruct (TronGame.ai_mode g);
      [apply I2 | apply steer_all_heading; [exact U2 | apply I2]]. }
  assert (S2 : same_but_heading q2 p2).
  { apply (decided_same g p2 d2 q1 q2 W H Sd Hq2). }
  assert (D2 : is_heading (Player.direction q2)).
  { destruct (TronGame.ai_mode g && AIPlayer.isinstance d2).
    - eapply make_decision_heading; eauto.
    - now subst q2. }
  set (r1 := after_collision (Player.move q1) (Player.move q2) W H) in *.
  set (r2 := after_collision (Player.move q2) (Player.move q1) W H) in *.
  assert (J1 : player_inv r1).
  { apply player_inv_after_collision, player_inv_move.
    apply (player_inv_heading q1 p1); assumption. }
  assert (J2 : player_inv r2).
  { apply player_inv_after_collision, player_inv_move.
    apply (player_inv_heading q2 p2); assumption. }
  assert (Hr' : roles (TronGame.ai_mode g) r1 r2).
  { destruct (after_collision_frame (Player.move q1) (Player.move q2) W H)
      as (N1 & C1 & B1).
    destruct (after_collision_frame (Player.move q2) (Player.move q1) W H)
      as (N2 & C2 & B2).
    destruct (move_frame q1) as (_ & _ & M1 & M2 & M3).
    destruct (move_frame q2) as (_ & _ & M4 & M5 & M6).
    destruct S1 as (_ & _ & _ & _ & T1 & T2 & T3).
    destruct S2 as (_ & _ & _ & _ & T4 & T5 & T6).
    apply (roles_same _ p1 p2); auto; unfold r1, r2; congruence. }
  rewrite E in Hup. inversion Hup; subst g'; clear Hup.
  destruct Hg as (Hscr & _ & _ & _).
  destruct (Player.alive r1 && Player.alive r2) eqn:Eal;
    unfold game_inv; simpl;
    (split; [exact Hscr|]); (split; [constructor|]);
    (split; [reflexivity|]); right; exists r1, r2;
    (split; [reflexivity|]); (split; [reflexivity|]);
    (split; [exact J1|]); (split; [exact J2|]); (split; [exact Hr'|]);
    unfold phase_inv; simpl.
  - apply andb_prop in Eal. tauto.
  - apply andb_false_iff in Eal. split; [exact Eal | reflexivity].
Qed.

Lemma game_reachable_inv (g : TronGame.t) : game_reachable g -> game_inv g.
Proof.
  induction 1 as [| ds key g g' _ IH E | keys g g' _ IH E | ticks g g' _ IH E].
  - apply game_inv_init.
  - eapply game_inv_key_event; eauto.
  - eapply game_inv_handle_input; eauto.
  - eapply game_inv_update; eauto.
Qed.

(** ** The main loop *)

Lemma game_inv_total (g : TronGame.t) (keys : Key -> bool) (ticks : Z) :
  game_inv g ->
  (exists g', TronGame.handle_input keys g = Some g')
  /\ (exists g', TronGame.update ticks g = Some g').
Proof.
  intros Hg. destruct (TronGame.state g) eqn:Hs;
    try (split; exists g;
         [apply handle_input_outside | apply update_outside_play];
         rewrite Hs; discriminate).
  destruct (game_inv_playing g Hg Hs) as (p1 & p2 & H1 & H2 & _).
  split.
  - rewrite (handle_input_playing keys g p1 p2 Hs H1 H2). eauto.
  - destruct (update_playing_explicit ticks g p1 p2 Hs H1 H2) as (q2 & _ & Hup).
    cbv zeta in Hup. rewrite Hup. eauto.
Qed.

Lemma handle_events_reachable
      (display_size : Z * Z) (events : list TronGame.Event) :
  forall (running running' : bool) (g g' : TronGame.t),
  game_reachable g ->
  TronGame.handle_events display_size events running g = Some (running', g') ->
  game_reachable g'.
Proof.
  induction events as [|ev rest IH]; intros running running' g g' Hg E.
  - simpl in E. inversion E; subst. exact Hg.
  - destruct ev as [|key|]; simpl in E.
    + eapply IH; eauto.
    + destruct (TronGame.handle_key_event display_size key g) as [g1|] eqn:Ek;
        [|discriminate].
      eapply IH; [|exact E]. eapply reachable_key_event; eauto.
    + eapply IH; eauto.
Qed.

Lemma run_frame_reachable
      (display_size : Z * Z) (input : TronGame.FrameInput) (g : TronGame.t) :
  game_reachable g ->
  match TronGame.run_frame display_size input g with
  | TronGame.RunRaised => False
  | TronGame.RunEscaped => True
  | TronGame.RunQuit g' => game_reachable g'
  | TronGame.RunLooping g' => game_reachable g'
  end.
Proof.
  intros Hg. unfold TronGame.run_frame.
  destruct (TronGame.handle_events _ _ _ _) as [[running g1]|] eqn:Ee; [|exact I].
  assert (Hg1 : game_reachable g1) by (eapply handle_events_reachable; eauto).
  destruct (game_inv_total g1 (TronGame.frame_pressed input)
                           (TronGame.frame_ticks input)
                           (game_reachable_inv g1 Hg1)) as [[g2 Ei] _].
  rewrite Ei.
  assert (Hg2 : game_reachable g2) by (eapply reachable_handle_input; eauto).
  destruct (game_inv_total g2 (TronGame.frame_pressed input)
                           (TronGame.frame_ticks input)
                           (game_reachable_inv g2 Hg2)) as [_ [g3 Eu]].
  rewrite Eu.
  assert (Hg3 : game_reachable g3) by (eapply reachable_update; eauto).
  now destruct running.
Qed.

Lemma run_reachable (display_size : Z * Z) (inputs : list TronGame.FrameInput) :
  forall g : TronGame.t,
  game_reachable g ->
  match TronGame.run display_size inputs g with
  | TronGame.RunRaised => False
  | TronGame.RunEscaped => True
  | TronGame.RunQuit g' => game_reachable g'
  | TronGame.RunLooping g' => game_reachable g'
  end.
Proof.
  induction inputs as [|input rest IH]; intros g Hg; simpl; [exact Hg|].
  pose proof (run_frame_reachable display_size input g Hg) as Hf.
  destruct (TronGame.run_frame display_size input g) as [| |g'|g'];
    [exact I | contradiction | exact Hf | apply IH; exact Hf].
Qed.

Lemma main_reachable (display_size : Z * Z) (inputs : list TronGame.FrameInput)
      (g : TronGame.t) :
  TronGame.main display_size inputs = TronGame.RunLooping g \/
  TronGame.main display_size inputs = TronGame.RunQuit g ->
  game_reachable g.
Proof.
  intros E.
  pose proof (run_reachable display_size inputs TronGame.init reachable_init) as H.
  fold (TronGame.main display_size inputs) in H.
  destruct E as [E | E]; rewrite E in H; exact H.
Qed.

Lemma started_game_reachable : game_reachable started_game.
Proof.
  apply (reachable_key_event (1400, 900) K_1 TronGame.init);
    [apply reachable_init | reflexivity].
Qed.

Lemma started_ai_game_reachable : game_reachable started_ai_game.
Proof.
  apply (reachable_key_event (1400, 900) K_2 TronGame.init);
    [apply reachable_init | reflexivity].
Qed.

Lemma wall_crash_game_reachable : game_reachable wall_crash_game.
Proof.
  apply (main_reachable (1920, 1080) wall_crash_inputs). left.
  vm_compute. reflexivity.
Qed.

(** X14.  The main loop never raises: whatever events, held keys and
    clock values it is fed from a new game object, no call on a missing
    player and no index out of range occurs; and on any game it has
    reached, [handle_input] and [update] return. *)
Theorem run_never_raises
        (display_size : Z * Z) (inputs : list TronGame.FrameInput) :
  TronGame.main display_size inputs <> TronGame.RunRaised
  /\ forall (g : TronGame.t) (keys : Key -> bool) (ticks : Z),
      TronGame.main display_size inputs = TronGame.RunLooping g
      \/ TronGame.main display_size inputs = TronGame.RunQuit g ->
      (exists g', TronGame.handle_input keys g = Some g')
      /\ (exists g', TronGame.update ticks g = Some g').
Proof.
  split.
  - pose proof (run_reachable display_size inputs TronGame.init reachable_init)
      as H.
    fold (TronGame.main display_size inputs) in H.
    intros E. rewrite E in H. exact H.
  - intros g keys ticks E.
    apply game_inv_total, game_reachable_inv.
    exact (main_reachable display_size inputs g E).
Qed.

(** ** Keys *)

(** X8.  The keys that [handle_key_event] lets into the queue are the
    keys that the controls built by [reset_game] bind; no key is bound
    for both players; and every bound heading is a unit heading. *)
Theorem movement_keys_are_bound (key : Key) :
  (TronGame.key_in key TronGame.movement_keys_1
   || TronGame.key_in key TronGame.movement_keys_2 = true
   <-> controls_get TronGame.player1_controls key <> None
       \/ controls_get TronGame.player2_controls key <> None)
  /\ (controls_get TronGame.player1_controls key = None
      \/ controls_get TronGame.player2_controls key = None)
  /\ (forall d,
        controls_get TronGame.player1_controls key = Some d
        \/ controls_get TronGame.player2_controls key = Some d ->
        is_heading d).
Proof.
  unfold is_heading.
  destruct key; cbn;
    (split;
     [split;
      [intros E; first [discriminate E | left; discriminate | right; discriminate]
      | intros [E | E]; first [reflexivity | exfalso; apply E; reflexivity]]
     | split;
       [first [left; reflexivity | right; reflexivity]
       | intros d [E | E]; inversion E; subst; auto 6]]).
Qed.

Lemma handle_key_event_exit (display_size : Z * Z) (key : Key) (g : TronGame.t) :
  TronGame.handle_key_event display_size key g = TronGame.Exited
  <-> key = K_ESCAPE.
Proof.
  unfold TronGame.handle_key_event.
  destruct key; cbn;
    try (rewrite toggle_fullscreen_fields; cbn);
    try (split; [discriminate | reflexivity]);
    try (split; reflexivity);
    destruct (TronGame.state g); cbn;
    repeat match goal with
           | |- context [if ?b then _ else _] => destruct b
           end;
    split; intros E; discriminate E.
Qed.

(** X9.  During play only the escape key ends [handle_key_event] with an
    exit, and no key event ends or restarts the game or touches the
    players, the winner, the timer or the mode: at most the key joins
    the queue. *)
Theorem key_event_during_play
        (display_size : Z * Z) (key : Key) (g : TronGame.t) :
  TronGame.state g = PLAYING ->
  (TronGame.handle_key_event display_size key g = TronGame.Exited
   <-> key = K_ESCAPE)
  /\ forall g',
      TronGame.handle_key_event display_size key g = TronGame.Running g' ->
      TronGame.state g' = PLAYING
      /\ TronGame.player1 g' = TronGame.player1 g
      /\ TronGame.player2 g' = TronGame.player2 g
      /\ TronGame.winner g' = TronGame.winner g
      /\ TronGame.game_over_timer g' = TronGame.game_over_timer g
      /\ TronGame.ai_mode g' = TronGame.ai_mode g
      /\ (TronGame.input_queue g' = TronGame.input_queue g
          \/ (is_movement_key key
              /\ TronGame.input_queue g' = TronGame.input_queue g ++ [key])).
Proof.
  intros Hs. split; [apply handle_key_event_exit|].
  intros g' E. apply handle_key_event_cases in E.
  destruct E as [[_ ->] | [(Hc & _) | [(Hc & _) | [(Hc & _)
               | [(Hc & _) | [(_ & Hk & ->) | [_ ->]]]]]]];
    try congruence.
  - rewrite toggle_fullscreen_fields. simpl. auto 10.
  - simpl. auto 10.
  - auto 10.
Qed.

Lemma key_event_during_play_witness :
  TronGame.handle_key_event (1920, 1080) K_r queued_game
  = TronGame.Running queued_game
  /\ TronGame.handle_key_event (1920, 1080) K_ESCAPE queued_game
     = TronGame.Exited.
Proof.
  destruct (key_event_during_play (1920, 1080) K_ESCAPE queued_game eq_refl)
    as [Hexit _].
  split; [reflexivity | apply Hexit; reflexivity].
Defined.

Lemma handle_key_event_K_f (display_size : Z * Z) (g : TronGame.t) :
  TronGame.handle_key_event display_size K_f g
  = TronGame.Running (TronGame.toggle_fullscreen display_size g).
Proof.
  unfold TronGame.handle_key_event. cbn.
  rewrite toggle_fullscreen_fields. cbn.
  now destruct (TronGame.state g).
Qed.


(** ** Invariants of a run *)

(** X11.  In a game that a run reaches, the queue holds movement keys
    only, and it is empty whenever the game is not in play. *)
Theorem queue_invariant (g : TronGame.t) :
  game_reachable g ->
  Forall is_movement_key (TronGame.input_queue g)
  /\ (TronGame.state g <> PLAYING -> TronGame.input_queue g = []).
Proof.
  intros Hr. apply game_reachable_inv in Hr. split; apply Hr.
Qed.

Lemma queue_invariant_witness :
  TronGame.state wall_crash_game = GAME_OVER
  /\ TronGame.input_queue wall_crash_game = [].
Proof.
  split; [vm_compute; reflexivity|].
  apply (queue_invariant wall_crash_game wall_crash_game_reachable).
  vm_compute. discriminate.
Defined.

Lemma verdict_cases (m : bool) (p1 p2 : Player.t) :
  roles m p1 p2 ->
  Player.alive p1 = false \/ Player.alive p2 = false ->
  (verdict p1 p2 = "Tie"%string
   <-> Player.alive p1 = false /\ Player.alive p2 = false)
  /\ (verdict p1 p2 = Player.name p1
      <-> Player.alive p1 = true /\ Player.alive p2 = false)
  /\ (verdict p1 p2 = Player.name p2
      <-> Player.alive p1 = false /\ Player.alive p2 = true).
Proof.
  intros (N1 & _ & _ & N2) Hd. unfold verdict. rewrite N1.
  assert (Hn2 : Player.name p2 = "AI"%string \/ Player.name p2 = "Player 2"%string).
  { destruct m; destruct N2 as (-> & _); auto. }
  destruct (Player.alive p1), (Player.alive p2); simpl;
    destruct Hd as [Hd | Hd]; try discriminate Hd;
    destruct Hn2 as [-> | ->];
    intuition (try discriminate; try congruence).
Qed.

(** X12.  When a run has reached the game-over state, both players
    exist, at least one is dead, and the recorded winner tells who is
    left: "Tie" exactly when both are dead, and otherwise the name of
    the one player that is alive. *)
Theorem game_over_winner_consistent (g : TronGame.t) :
  game_reachable g ->
  TronGame.state g = GAME_OVER ->
  exists p1 p2,
    TronGame.player1 g = Some p1 /\ TronGame.player2 g = Some p2
    /\ (Player.alive p1 = false \/ Player.alive p2 = false)
    /\ (TronGame.winner g = Some "Tie"%string
        <-> Player.alive p1 = false /\ Player.alive p2 = false)
    /\ (TronGame.winner g = Some (Player.name p1)
        <-> Player.alive p1 = true /\ Player.alive p2 = false)
    /\ (TronGame.winner g = Some (Player.name p2)
        <-> Player.alive p1 = false /\ Player.alive p2 = true).
Proof.
  intros Hr Hs. apply game_reachable_inv in Hr.
  destruct Hr as (_ & _ & _ & Hp).
  destruct Hp as [(_ & _ & Hm) | (p1 & p2 & H1 & H2 & _ & _ & Hro & Hph)];
    [congruence|].
  unfold phase_inv in Hph. rewrite Hs in Hph. destruct Hph as [Hd Hw].
  destruct (verdict_cases _ p1 p2 Hro Hd) as (Vt & V1 & V2).
  exists p1, p2. split; [exact H1|]. split; [exact H2|]. split; [exact Hd|].
  rewrite Hw.
  split; [|split].
  - rewrite <- Vt. split; [intros E; now inversion E | intros ->; reflexivity].
  - rewrite <- V1. split; [intros E; now inversion E | intros ->; reflexivity].
  - rewrite <- V2. split; [intros E; now inversion E | intros ->; reflexivity].
Qed.

Lemma game_over_winner_consistent_witness :
  TronGame.winner wall_crash_game = Some "Player 1"%string
  /\ exists p1 p2,
      TronGame.player1 wall_crash_game = Some p1
      /\ TronGame.player2 wall_crash_game = Some p2
      /\ Player.alive p1 = true /\ Player.alive p2 = false.
Proof.
  destruct (game_over_winner_consistent wall_crash_game
              wall_crash_game_reachable)
    as (p1 & p2 & H1 & H2 & _ & _ & Hw1 & _).
  - vm_compute. reflexivity.
  - split; [vm_compute; reflexivity|].
    exists p1, p2. split; [exact H1|]. split; [exact H2|].
    apply Hw1. vm_compute in H1. injection H1 as <-.
    vm_compute. reflexivity.
Defined.

(** X13.  Whenever a run has built the players, player one is a plain
    player on the arrow keys, and player two is an [AIPlayer] exactly in
    AI mode: then it has no controls and its two timing fields still
    hold 0 and 100; otherwise it is a plain player on WASD. *)
Theorem player_two_is_ai_in_ai_mode (g : TronGame.t) (p1 p2 : Player.t) :
  game_reachable g ->
  TronGame.player1 g = Some p1 -> TronGame.player2 g = Some p2 ->
  AIPlayer.isinstance p1 = false
  /\ AIPlayer.isinstance p2 = TronGame.ai_mode g
  /\ Player.controls p1 = TronGame.player1_controls
  /\ Player.controls p2
     = (if TronGame.ai_mode g then [] else TronGame.player2_controls)
  /\ Player.ai p2 = (if TronGame.ai_mode g then Some (0, 100) else None).
Proof.
  intros Hr H1 H2. apply game_reachable_inv in Hr.
  destruct Hr as (_ & _ & _ & Hp).
  destruct Hp as [(Hn & _) | (q1 & q2 & E1 & E2 & _ & _ & Hro & _)];
    [congruence|].
  assert (q1 = p1) by congruence. assert (q2 = p2) by congruence. subst.
  destruct Hro as (_ & C1 & A1 & R2).
  unfold AIPlayer.isinstance. rewrite A1.
  destruct (TronGame.ai_mode g); destruct R2 as (_ & C2 & A2);
    rewrite A2; auto.
Qed.

Lemma player_two_is_ai_in_ai_mode_witness :
  exists p1 p2,
    TronGame.player1 wall_crash_game = Some p1
    /\ TronGame.player2 wall_crash_game = Some p2
    /\ AIPlayer.isinstance p2 = false
    /\ Player.controls p2 = TronGame.player2_controls.
Proof.
  destruct (TronGame.player1 wall_crash_game) as [p1|] eqn:E1;
    [|vm_compute in E1; discriminate].
  destruct (TronGame.player2 wall_crash_game) as [p2|] eqn:E2;
    [|vm_compute in E2; discriminate].
  destruct (player_two_is_ai_in_ai_mode wall_crash_game p1 p2
              wall_crash_game_reachable E1 E2) as (_ & Hi & _ & Hc & _).
  exists p1, p2. split; [reflexivity|]. split; [reflexivity|].
  split; [exact Hi | exact Hc].
Defined.

(** X15.  Every player of a game that a run reaches has a unit heading
    and a trail of at most 1000 cells that ends on its position; its
    head overlaps an earlier cell of its own trail exactly when it is on
    that cell again. *)
Theorem game_players_well_formed (g : TronGame.t) (p : Player.t) :
  game_reachable g ->
  TronGame.player1 g = Some p \/ TronGame.player2 g = Some p ->
  is_heading (Player.direction p)
  /\ (exists older, Player.trail p = older ++ [(Player.x p, Player.y p)])
  /\ (length (Player.trail p) <= 1000)%nat
  /\ (hits (Player.x p) (Player.y p) (removelast (Player.trail p)) = true
      <-> In (Player.x p, Player.y p) (removelast (Player.trail p))).
Proof.
  intros Hr Hp. apply game_reachable_inv in Hr.
  destruct Hr as (_ & _ & _ & Hpl).
  assert (Hinv : player_inv p).
  { destruct Hpl as [(N1 & N2 & _) | (p1 & p2 & E1 & E2 & I1 & I2 & _)].
    - destruct Hp; congruence.
    - destruct Hp as [E | E];
        [assert (p = p1) by congruence | assert (p = p2) by congruence];
        subst; assumption. }
  destruct Hinv as (Hh & Hs & Hl & Hlat).
  split; [exact Hh|]. split; [exact Hs|]. split; [exact Hl|].
  apply lattice_hit_exact. intros c Hc. apply Hlat. now apply in_removelast.
Qed.

Lemma game_players_well_formed_witness :
  exists p,
    TronGame.player2 wall_crash_game = Some p
    /\ is_heading (Player.direction p)
    /\ (length (Player.trail p) <= 1000)%nat.
Proof.
  destruct (TronGame.player2 wall_crash_game) as [p|] eqn:E;
    [|vm_compute in E; discriminate].
  destruct (game_players_well_formed wall_crash_game p
              wall_crash_game_reachable (or_intror E)) as (Hh & _ & Hl & _).
  exists p. split; [reflexivity|]. split; [exact Hh | exact Hl].
Defined.

(** ** The start of a game *)

Lemma start_columns (W : Z) :
  let a := W / GRID_SIZE / 4 in
  let b := 3 * (W / GRID_SIZE) / 4 in
  (0 <= W -> 0 <= a /\ 0 <= b)
  /\ (1 <= W -> a * GRID_SIZE < W /\ b * GRID_SIZE < W)
  /\ (40 <= W -> a + 1 <= b)
  /\ (0 <= W < 40 -> a = 0 /\ b = 0).
Proof.
  unfold GRID_SIZE. cbv zeta.
  pose proof (Z.div_mod W 20 ltac:(lia)) as H1.
  pose proof (Z.mod_pos_bound W 20 ltac:(lia)) as H2.
  pose proof (Z.div_mod (W / 20) 4 ltac:(lia)) as H3.
  pose proof (Z.mod_pos_bound (W / 20) 4 ltac:(lia)) as H4.
  pose proof (Z.div_mod (3 * (W / 20)) 4 ltac:(lia)) as H5.
  pose proof (Z.mod_pos_bound (3 * (W / 20)) 4 ltac:(lia)) as H6.
  repeat split; lia.
Qed.

Lemma start_row (H : Z) :
  let r := H / GRID_SIZE / 2 in
  1 <= H -> 0 <= r * GRID_SIZE < H.
Proof.
  unfold GRID_SIZE. cbv zeta. intros Hpos.
  pose proof (Z.div_mod H 20 ltac:(lia)) as H1.
  pose proof (Z.mod_pos_bound H 20 ltac:(lia)) as H2.
  pose proof (Z.div_mod (H / 20) 2 ltac:(lia)) as H3.
  pose proof (Z.mod_pos_bound (H / 20) 2 ltac:(lia)) as H4.
  lia.
Qed.

Lemma first_cells_collision (x1 x2 y0 W H : Z) (p1 p2 : Player.t) :
  Player.alive p1 = true ->
  Player.x p1 = x1 -> Player.y p1 = y0 -> Player.trail p1 = [(x1, y0)] ->
  Player.trail p2 = [(x2, y0)] ->
  (0 <= x1 < W -> 0 <= y0 < H -> GRID_SIZE <= Z.abs (x1 - x2) ->
   Player.check_collision p1 p2 [] W H = false)
  /\ (x1 = x2 -> Player.check_collision p1 p2 [] W H = true).
Proof.
  intros Ha Hx Hy Ht1 Ht2.
  rewrite check_collision_bool, Ha, Hx, Hy, Ht1, Ht2.
  cbn [andb removelast hits]. unfold overlaps, GRID_SIZE. cbn [fst snd].
  split.
  - intros Bx By Hfar.
    destruct (Z.ltb_spec x1 0), (Z.geb_spec x1 W), (Z.ltb_spec y0 0),
             (Z.geb_spec y0 H); try lia. cbn [orb].
    destruct (Z.ltb_spec (Z.abs (x1 - x2)) 20); [lia | reflexivity].
  - intros ->. rewrite !Z.sub_diag. cbn. now rewrite !orb_true_r.
Qed.

(** X16.  After [reset_game] on a screen at least 40 wide and 1 high,
    neither player is in collision: the game does not end before anyone
    has moved.  On a screen narrower than 40 both players start on the
    same cell and both are in collision. *)
Theorem fresh_game_collisions (g : TronGame.t) :
  let W := fst (TronGame.screen g) in
  let H := snd (TronGame.screen g) in
  exists p1 p2,
    TronGame.player1 (TronGame.reset_game g) = Some p1
    /\ TronGame.player2 (TronGame.reset_game g) = Some p2
    /\ (40 <= W -> 1 <= H ->
        Player.check_collision p1 p2 [] W H = false
        /\ Player.check_collision p2 p1 [] W H = false)
    /\ (0 <= W < 40 ->
        Player.check_collision p1 p2 [] W H = true
        /\ Player.check_collision p2 p1 [] W H = true).
Proof.
  intros W H. rewrite reset_game_fields. cbv zeta. fold W H.
  cbn [TronGame.player1 TronGame.player2].
  set (x1 := W / GRID_SIZE / 4 * GRID_SIZE).
  set (x2 := 3 * (W / GRID_SIZE) / 4 * GRID_SIZE).
  set (y0 := H / GRID_SIZE / 2 * GRID_SIZE).
  do 2 eexists. split; [reflexivity|]. split; [reflexivity|].
  set (p1 := Player.init x1 y0 NEON_BLUE TronGame.player1_controls "Player 1").
  set (p2 := if TronGame.ai_mode g
             then AIPlayer.init x2 y0 NEON_ORANGE "AI"
             else Player.init x2 y0 NEON_ORANGE TronGame.player2_controls
                              "Player 2").
  assert (F2 : Player.alive p2 = true /\ Player.x p2 = x2 /\ Player.y p2 = y0
               /\ Player.trail p2 = [(x2, y0)]).
  { unfold p2. destruct (TronGame.ai_mode g); simpl; auto. }
  destruct F2 as (A2 & X2 & Y2 & T2).
  destruct (first_cells_collision x1 x2 y0 W H p1 p2 eq_refl eq_refl eq_refl
                                  eq_refl T2) as [Far12 Same12].
  destruct (first_cells_collision x2 x1 y0 W H p2 p1 A2 X2 Y2 T2 eq_refl)
    as [Far21 Same21].
  destruct (start_columns W) as (Hpos & Hin & Hfar & Hsame).
  cbv zeta in Hpos, Hin, Hfar, Hsame.
  split.
  - intros HW HH. pose proof (start_row H HH) as Hrow. cbv zeta in Hrow.
    fold y0 in Hrow.
    assert (Bx1 : 0 <= x1 < W) by (unfold x1, GRID_SIZE in *; lia).
    assert (Bx2 : 0 <= x2 < W) by (unfold x2, GRID_SIZE in *; lia).
    assert (Hgap : GRID_SIZE <= x2 - x1) by (unfold x1, x2, GRID_SIZE in *; lia).
    split; [apply Far12 | apply Far21]; auto; lia.
  - intros HW.
    assert (E : x1 = x2) by (unfold x1, x2; destruct (Hsame HW) as [-> ->]; reflexivity).
    split; [apply Same12 | apply Same21]; congruence.
Qed.

Lemma fresh_game_collisions_witness :
  exists p1 p2,
    TronGame.player1 started_game = Some p1
    /\ TronGame.player2 started_game = Some p2
    /\ Player.check_collision p1 p2 [] 1400 900 = false
    /\ Player.check_collision p2 p1 [] 1400 900 = false.
Proof.
  destruct (fresh_game_collisions (TronGame.set_ai_mode TronGame.init false))
    as (p1 & p2 & H1 & H2 & Hwide & _).
  exists p1, p2. split; [exact H1|]. split; [exact H2|].
  apply Hwide; cbn; unfold WINDOW_WIDTH, WINDOW_HEIGHT; lia.
Defined.

(** ** Meeting head on *)

Lemma move_head_in_trail (p : Player.t) :
  Player.alive p = true ->
  In (Player.x (Player.move p), Player.y (Player.move p))
     (Player.trail (Player.move p)).
Proof.
  intros Ha. rewrite (move_alive p Ha). cbv zeta.
  cbn [Player.x Player.y Player.trail].
  destruct (slice_last_snoc (A:=Cell) 1000 (Player.trail p)
              (Player.x p + fst (Player.direction p) * move_distance,
               Player.y p + snd (Player.direction p) * move_distance))
    as [older E]; [lia|].
  unfold Cell in *. rewrite E.
  apply in_or_app. right. now left.
Qed.

(** X3.  In two-player mode, when the cells the two alive players step
    onto in a tick overlap, [update] kills both, ends the game and
    records "Tie" with the clock value. *)
Theorem head_on_is_a_tie (ticks : Z) (g : TronGame.t) (p1 p2 : Player.t) :
  TronGame.state g = PLAYING -> TronGame.ai_mode g = false ->
  TronGame.player1 g = Some p1 -> TronGame.player2 g = Some p2 ->
  Player.alive p1 = true -> Player.alive p2 = true ->
  let m1 := Player.move (fold_left steer (TronGame.input_queue g) p1) in
  let m2 := Player.move (fold_left steer (TronGame.input_queue g) p2) in
  within_grid (Player.x m1) (Player.y m1) (Player.x m2, Player.y m2) ->
  TronGame.update ticks g
  = Some (TronGame.mk (TronGame.fullscreen g) (TronGame.screen g)
            GAME_OVER ticks (Some "Tie"%string)
            (Some (Player.crash m1)) (Some (Player.crash m2))
            false []).
Proof.
  intros Hs Hm H1 H2 A1 A2 m1 m2 Hw.
  destruct (update_playing_explicit ticks g p1 p2 Hs H1 H2) as (q2 & Hq2 & Hup).
  cbv zeta in Hq2, Hup. rewrite Hm in Hq2, Hup. simpl in Hq2. subst q2.
  fold m1 m2 in Hup.
  assert (B1 : Player.alive m1 = true).
  { unfold m1. destruct (move_frame (fold_left steer (TronGame.input_queue g) p1))
      as (_ & -> & _).
    destruct (steer_all_same (TronGame.input_queue g) p1) as (_ & _ & _ & -> & _).
    exact A1. }
  assert (B2 : Player.alive m2 = true).
  { unfold m2. destruct (move_frame (fold_left steer (TronGame.input_queue g) p2))
      as (_ & -> & _).
    destruct (steer_all_same (TronGame.input_queue g) p2) as (_ & _ & _ & -> & _).
    exact A2. }
  assert (I1 : In (Player.x m1, Player.y m1) (Player.trail m1)).
  { apply move_head_in_trail.
    destruct (steer_all_same (TronGame.input_queue g) p1) as (_ & _ & _ & -> & _).
    exact A1. }
  assert (I2 : In (Player.x m2, Player.y m2) (Player.trail m2)).
  { apply move_head_in_trail.
    destruct (steer_all_same (TronGame.input_queue g) p2) as (_ & _ & _ & -> & _).
    exact A2. }
  destruct (overlapping_heads_collide m1 m2 []
              (fst (TronGame.screen g)) (snd (TronGame.screen g))
              B1 B2 I1 I2 Hw) as [C1 C2].
  unfold after_collision in Hup. rewrite C1, C2 in Hup. simpl in Hup.
  exact Hup.
Qed.

Lemma head_on_is_a_tie_witness :
  exists g',
    TronGame.update 777 head_on_game = Some g'
    /\ TronGame.state g' = GAME_OVER
    /\ TronGame.winner g' = Some "Tie"%string.
Proof.
  eexists. split.
  - apply (head_on_is_a_tie 777 head_on_game (player_at 100 200)
             (Player.set_direction (player_two_at 160 200) (-1, 0)));
      try reflexivity.
    unfold within_grid, GRID_SIZE. simpl. lia.
  - split; reflexivity.
Defined.

(** ** The cap on the trail *)



(** ** Polling the held keys *)

Lemma apply_pressed_none (keys : Key -> bool) (items : Controls) (p : Player.t) :
  (forall key d, In (key, d) items -> keys key = false) ->
  TronGame.apply_pressed keys items p = p.
Proof.
  revert p. induction items as [|[key d] rest IH]; intros p Hk; simpl; auto.
  rewrite (Hk key d) by now left.
  apply IH. intros k e Hin. apply (Hk k e). now right.
Qed.

Lemma apply_pressed_only_heading
      (keys : Key -> bool) (items : Controls) (p : Player.t) :
  TronGame.apply_pressed keys items p
  = Player.set_direction
      p (Player.direction (TronGame.apply_pressed keys items p)).
Proof.
  revert p. induction items as [|[key d] rest IH]; intros p; simpl.
  - symmetry. apply set_direction_same.
  - eapply only_heading_trans; [apply IH|].
    destruct (keys key).
    + apply change_direction_only_heading.
    + symmetry. apply set_direction_same.
Qed.

(** X17.  [handle_input] changes nothing outside play; in play it
    changes at most the two headings, every other field of the two
    players (colour and speed included) and of the game being as it
    was, and player two being left alone in AI mode; and it changes
    nothing when none of the bound keys is held. *)
Theorem handle_input_only_steers
        (keys : Key -> bool) (g : TronGame.t) (p1 p2 : Player.t) :
  TronGame.player1 g = Some p1 -> TronGame.player2 g = Some p2 ->
  exists q1 q2,
    TronGame.handle_input keys g
    = Some (TronGame.set_player2 (TronGame.set_player1 g (Some q1)) (Some q2))
    /\ same_but_heading q1 p1 /\ same_but_heading q2 p2
    /\ q1 = Player.set_direction p1 (Player.direction q1)
    /\ q2 = Player.set_direction p2 (Player.direction q2)
    /\ (TronGame.state g <> PLAYING -> q1 = p1 /\ q2 = p2)
    /\ (TronGame.ai_mode g = true -> q2 = p2)
    /\ ((forall key d, In (key, d) (Player.controls p1) -> keys key = false) ->
        q1 = p1)
    /\ ((forall key d, In (key, d) (Player.controls p2) -> keys key = false) ->
        q2 = p2).
Proof.
  intros H1 H2.
  destruct (TronGame.state g) eqn:Hs.
  1, 3: exists p1, p2; split;
    [rewrite handle_input_outside by (rewrite Hs; discriminate);
     destruct g; simpl in *; subst; reflexivity
    | split; [apply same_but_heading_refl|];
      split; [apply same_but_heading_refl|];
      split; [symmetry; apply set_direction_same|];
      split; [symmetry; apply set_direction_same|];
      repeat split; auto ].
  exists (TronGame.apply_pressed keys (Player.controls p1) p1),
         (if TronGame.ai_mode g then p2
          else TronGame.apply_pressed keys (Player.controls p2) p2).
  split.
  { rewrite (handle_input_playing keys g p1 p2 Hs H1 H2).
    destruct g; simpl in *; subst; reflexivity. }
  split; [apply apply_pressed_same|].
  split; [destruct (TronGame.ai_mode g);
          [apply same_but_heading_refl | apply apply_pressed_same]|].
  split; [apply apply_pressed_only_heading|].
  split; [destruct (TronGame.ai_mode g);
          [symmetry; apply set_direction_same
          | apply apply_pressed_only_heading]|].
  split; [intros Hn; congruence|].
  split; [intros ->; reflexivity|].
  split; [apply apply_pressed_none|].
  intros Hk. destruct (TronGame.ai_mode g); [reflexivity|].
  now apply apply_pressed_none.
Qed.

Lemma handle_input_only_steers_witness :
  TronGame.handle_input (fun _ => false) started_game = Some started_game
  /\ TronGame.handle_input (fun key => Key_eqb key K_w) started_ai_game
     = Some started_ai_game.
Proof.
  split.
  - destruct (handle_input_only_steers (fun _ => false) started_game _ _
                                       eq_refl eq_refl)
      as (q1 & q2 & E & _ & _ & _ & _ & _ & _ & N1 & N2).
    rewrite E, N1, N2; auto.
  - destruct (handle_input_only_steers (fun key => Key_eqb key K_w)
                                       started_ai_game _ _ eq_refl eq_refl)
      as (q1 & q2 & E & _ & _ & _ & _ & _ & A2 & N1 & _).
    rewrite E, N1, A2; auto.
    intros key d Hin. simpl in Hin.
    destruct Hin as [Hin | [Hin | [Hin | [Hin | []]]]];
      inversion Hin; reflexivity.
Defined.

(** ** Leaving the loop *)

Lemma handle_events_quit
      (display_size : Z * Z) (events : list TronGame.Event) :
  forall (running running' : bool) (g g' : TronGame.t),
  TronGame.handle_events display_size events running g = Some (running', g') ->
  (In TronGame.QUIT events -> running' = false)
  /\ (running = false -> running' = false).
Proof.
  induction events as [|ev rest IH]; intros running running' g g' E.
  - simpl in E. inversion E; subst. split; [intros [] | auto].
  - destruct ev as [|key|]; simpl in E.
    + destruct (IH _ _ _ _ E) as [_ Hf]. split; auto.
    + destruct (TronGame.handle_key_event display_size key g) as [g1|];
        [|discriminate].
      destruct (IH _ _ _ _ E) as [Hq Hf]. split; auto.
      intros [Hc | Hin]; [discriminate | auto].
    + destruct (IH _ _ _ _ E) as [Hq Hf]. split; auto.
      intros [Hc | Hin]; [discriminate | auto].
Qed.

(** X19.  A turn of the loop that receives [QUIT] is the last one: the
    loop does not go on after it, whatever input is still waiting; the
    turn itself is still carried out to its end unless the escape key
    cuts it short. *)
Theorem quit_ends_the_loop
        (display_size : Z * Z) (input : TronGame.FrameInput)
        (more : list TronGame.FrameInput) (g : TronGame.t) :
  In TronGame.QUIT (TronGame.frame_events input) ->
  TronGame.run display_size (input :: more) g
  = TronGame.run_frame display_size input g
  /\ (forall g', TronGame.run_frame display_size input g
                 <> TronGame.RunLooping g')
  /\ (forall running g1 g2 g3,
        TronGame.handle_events display_size (TronGame.frame_events input) true g
        = Some (running, g1) ->
        TronGame.handle_input (TronGame.frame_pressed input) g1 = Some g2 ->
        TronGame.update (TronGame.frame_ticks input) g2 = Some g3 ->
        TronGame.run_frame display_size input g = TronGame.RunQuit g3).
Proof.
  intros Hq.
  assert (Hno : forall g', TronGame.run_frame display_size input g
                           <> TronGame.RunLooping g').
  { intros g'. unfold TronGame.run_frame.
    destruct (TronGame.handle_events _ _ _ _) as [[running g1]|] eqn:Ee;
      [|discriminate].
    destruct (handle_events_quit _ _ _ _ _ _ Ee) as [Hf _].
    rewrite (Hf Hq).
    destruct (TronGame.handle_input _ g1) as [g2|]; [|discriminate].
    destruct (TronGame.update _ g2) as [g3|]; discriminate. }
  split; [|split; [exact Hno|]].
  - simpl. destruct (TronGame.run_frame display_size input g) as [| |g'|g'] eqn:E;
      try reflexivity.
    exfalso. exact (Hno g' eq_refl).
  - intros running g1 g2 g3 Ee Ei Eu. unfold TronGame.run_frame.
    rewrite Ee, Ei, Eu.
    destruct (handle_events_quit _ _ _ _ _ _ Ee) as [Hf _].
    now rewrite (Hf Hq).
Qed.

Lemma quit_ends_the_loop_witness :
  TronGame.run (1920, 1080)
    (TronGame.mkFrameInput [TronGame.QUIT; TronGame.KEYDOWN K_1]
                           (fun _ => false) 0
     :: repeat idle_frame 5)
    TronGame.init
  = TronGame.run_frame (1920, 1080)
      (TronGame.mkFrameInput [TronGame.QUIT; TronGame.KEYDOWN K_1]
                             (fun _ => false) 0)
      TronGame.init.
Proof.
  apply (quit_ends_the_loop (1920, 1080)
           (TronGame.mkFrameInput [TronGame.QUIT; TronGame.KEYDOWN K_1]
                                  (fun _ => false) 0)
           (repeat idle_frame 5) TronGame.init).
  simpl. now left.
Defined.
